(** * go-pipeline: a shallow embedding of the orchestration core

    The development follows the three Go files of package [pipeline]:
    the configuration types, the [ExecutionContext] (the value store) and
    the [Pipeline] itself (step ordering, argument resolution, the
    fail-fast loop of [Execute] and the output filter).

    Conventions of the embedding.
    - Go [int] values (indices, pick counters, the two [iota] enumerations)
      are integers in [Z]; the code only compares them and adds one to a
      counter that is below a slice length, so no wrap-around is involved.
    - Go maps are [gmap]s; a read of a missing key yields the zero value
      ([default]).  Slices are lists, [append] is [++].
    - A nil pointer ([*ArgBinding], [*StepConfig]) is [None].
    - [reflect.Type] is an abstract countable type [rtype], and
      [Type.AssignableTo] an abstract boolean relation on it.
    - A function with a pointer receiver that mutates it is a state
      transformer on the receiver; a function returning [(T, error)]
      returns a [Res T]; a run-time panic is an outcome of its own. *)

From stdpp Require Import gmap strings list fin_maps.
From Stdlib Require Import ZArith Lia.

Local Open Scope Z_scope.

(** ** Configuration *)

(** [type MissingArgPolicy int] with its two [iota] constants. *)
Definition MissingArgPolicyUseLatest : Z := 0.
Definition MissingArgPolicyFail : Z := 1.

(** [type ArgSourceType int] with its three [iota] constants. *)
Definition ArgSourceDefault : Z := 0.
Definition ArgSourceInitial : Z := 1.
Definition ArgSourceFunctionOutput : Z := 2.

Module ArgBinding.
Record t : Type := mk {
  Source : Z;
  Name : string;   (* step name if Source = ArgSourceFunctionOutput *)
  Index : Z        (* index in the initial inputs or in a function's outputs *)
}.
End ArgBinding.

Record StepConfig : Type := {
  ArgBindings : list (option ArgBinding.t)    (* []*ArgBinding *)
}.

Record PipelineConfig : Type := {
  StepOrder : list string;
  MissingArgPolicy : Z;
  OutputFilter : list string;
  StepConfigs : gmap string (option StepConfig)   (* map[string]*StepConfig *)
}.

Definition NewPipelineConfig : PipelineConfig :=
  {| StepOrder := [];
     MissingArgPolicy := MissingArgPolicyUseLatest;
     OutputFilter := [];
     StepConfigs := ∅ |}.

(** ** Outcomes *)

(** The run-time panics the code can raise on its own (a panic inside a
    step's callable is outside the model). *)
Inductive PanicKind : Type :=
  | TypeOnZeroValue      (* reflect: call of reflect.Value.Type on zero Value *)
  | NilStepConfig        (* nil pointer dereference of a *StepConfig *)
  | NotAFunction         (* reflect: NumIn of non-func type *)
  | IndexPastEnd.        (* index out of range on a slice *)

Inductive Res (E A : Type) : Type :=
  | Ok (a : A)
  | Err (e : E)
  | Panic (k : PanicKind).
Arguments Ok {E A} a.
Arguments Err {E A} e.
Arguments Panic {E A} k.

Inductive Level : Type := DebugLevel | InfoLevel | WarnLevel | ErrorLevel.

Section Model.
Context {rtype : Type} `{Countable rtype} {data : Type}.

(** [val.Type().AssignableTo(paramType)] *)
Variable AssignableTo : rtype → rtype → bool.

(** ** Values

    An [interface{}] is nil or a pair of a dynamic type and its datum.
    A valid [reflect.Value] has a static type: it is either a value of a
    concrete type, or (the result of a function whose declared result
    type is an interface type) a value of kind Interface that holds an
    [interface{}], possibly nil. *)
Definition iface : Type := option (rtype * data).

Inductive Value : Type :=
  | Concrete (t : rtype) (d : data)
  | Boxed (t : rtype) (x : iface).

(** [v.Type()] of a valid value. *)
Definition TypeOf (v : Value) : rtype :=
  match v with
  | Concrete t _ => t
  | Boxed t _ => t
  end.

(** [v.Interface()]: a value of kind Interface yields what it holds. *)
Definition Interface (v : Value) : iface :=
  match v with
  | Concrete t d => Some (t, d)
  | Boxed _ x => x
  end.

(** [reflect.ValueOf(x)]: the zero Value for a nil interface ([None]
    here; its only use in the code is [.Type()], which panics on it),
    and otherwise a value whose type is the dynamic type of [x]. *)
Definition ValueOf (x : iface) : option Value :=
  match x with
  | None => None
  | Some (t, d) => Some (Concrete t d)
  end.

(** ** Errors: one constructor per [fmt.Errorf] of the package, with the
    arguments of its format. *)
Inductive PipelineError : Type :=
  | NoValuesFound (t : rtype)
  | NegativeIndex (t : rtype)
  | CannotFindValue (step : string) (t : rtype) (cause : PipelineError)
  | MissingArgumentFail (step : string) (t : rtype)
  | UnknownMissingArgPolicy (step : string)
  | InitialIndexOutOfRange (step : string) (index total : Z)
  | InitialNotAssignable (step : string) (index : Z) (vt pt : rtype)
  | NoRecordedOutputs (step func : string)
  | OutputIndexOutOfRange (step : string) (index : Z) (func : string) (total : Z)
  | OutputNotAssignable (step : string) (vt : rtype) (func : string) (pt : rtype).

(** The error kinds of the design; a wrapped error ([%w]) has the kind of
    its cause. *)
Inductive ErrorKind : Type :=
  | NotFound | InvalidIndex | IndexOutOfRange | TypeMismatch
  | MissingArgument | UnknownProducer | UnknownPolicy.

Fixpoint errorKind (e : PipelineError) : ErrorKind :=
  match e with
  | NoValuesFound _ => NotFound
  | NegativeIndex _ => InvalidIndex
  | CannotFindValue _ _ cause => errorKind cause
  | MissingArgumentFail _ _ => MissingArgument
  | UnknownMissingArgPolicy _ => UnknownPolicy
  | InitialIndexOutOfRange _ _ _ => IndexOutOfRange
  | InitialNotAssignable _ _ _ _ => TypeMismatch
  | NoRecordedOutputs _ _ => UnknownProducer
  | OutputIndexOutOfRange _ _ _ _ => IndexOutOfRange
  | OutputNotAssignable _ _ _ _ => TypeMismatch
  end.

Local Abbreviation Result := (Res PipelineError).

(** ** ExecutionContext (the value store) *)

Record ExecutionContext : Type := {
  values : gmap rtype (list Value);
  initialValues : list Value
}.

Definition NewExecutionContext : ExecutionContext :=
  {| values := ∅; initialValues := [] |}.

(** [len(s)] as a Go [int]. *)
Definition len {A : Type} (s : list A) : Z := Z.of_nat (length s).

(** One iteration of the loop of [AddInputs]: [val.Type()] panics on
    the zero Value before anything is appended. *)
Definition addInput (ctx : ExecutionContext) (input : iface)
  : Result ExecutionContext :=
  match ValueOf input with
  | None => Panic TypeOnZeroValue
  | Some val =>
      let t := TypeOf val in
      Ok {| values := <[t := default [] (values ctx !! t) ++ [val]]> (values ctx);
            initialValues := initialValues ctx ++ [val] |}
  end.

(** The receiver after the call, and whether the call panicked. *)
Fixpoint AddInputs (ctx : ExecutionContext) (inputs : list iface)
  : ExecutionContext * Result unit :=
  match inputs with
  | [] => (ctx, Ok tt)
  | input :: rest =>
      match addInput ctx input with
      | Ok ctx' => AddInputs ctx' rest
      | Err e => (ctx, Err e)
      | Panic k => (ctx, Panic k)
      end
  end.

Definition storeValue (ctx : ExecutionContext) (val : Value) : ExecutionContext :=
  let t := TypeOf val in
  {| values := <[t := default [] (values ctx !! t) ++ [val]]> (values ctx);
     initialValues := initialValues ctx |}.

Definition StoreResults (ctx : ExecutionContext) (results : list Value)
  : ExecutionContext :=
  foldl storeValue ctx results.

Definition Values (ctx : ExecutionContext) : gmap rtype (list Value) := values ctx.

Definition InitialValues (ctx : ExecutionContext) : list Value := initialValues ctx.

(** [s[i]] on a slice: a panic when [i] is out of range. *)
Definition sliceAt {A : Type} (s : list A) (i : Z) : Result A :=
  if (i <? 0) || (len s <=? i) then Panic IndexPastEnd
  else match s !! Z.to_nat i with
       | Some x => Ok x
       | None => Panic IndexPastEnd
       end.

Definition getValueByIndex (ctx : ExecutionContext) (t : rtype) (i : Z)
  : Result Value :=
  match values ctx !! t with
  | None => Err (NoValuesFound t)
  | Some vals =>
      if len vals =? 0 then Err (NoValuesFound t)
      else if i <? 0 then Err (NegativeIndex t)
      else
        let i := if len vals <=? i then len vals - 1 else i in
        sliceAt vals i
  end.

(** ** Steps

    [Callable] is an [interface{}] that [executeStep] inspects by
    reflection.  A function value is its parameter types
    ([fnType.In(i)], [fnType.NumIn()]) and its behaviour under
    [fnValue.Call]; [None] stands for a callable that is not a function.
    The callable is taken to be a pure, total function of its arguments. *)
Record Func : Type := {
  ParamTypes : list rtype;
  Call : list Value → list Value
}.

Definition NumIn (fn : Func) : nat := length (ParamTypes fn).

Record Step : Type := {
  Name : string;
  Callable : option Func
}.

(** ** The logger

    The pipeline only calls the leveled methods of its logger; the
    logger is the list of the calls made, oldest first, each with its
    level and the arguments of its format. *)
Inductive LogMsg : Type :=
  | AddedStep (name : string)
  | AddedInitialInputs (n : Z)
  | ExecutingStep (name : string)
  | StepFailed (name : string) (err : PipelineError)
  | ExecutionComplete
  | StepOrderUnknown (name : string)
  | StepProduced (name : string) (n : Z).

Definition LogEntry : Type := Level * LogMsg.

(** ** Pipeline *)

Record Pipeline : Type := {
  steps : list Step;
  context : ExecutionContext;
  config : PipelineConfig;
  logger : list LogEntry;
  stepOutputs : gmap string (list iface);
  pickCounters : gmap rtype Z
}.

Definition NewPipeline (config : option PipelineConfig) : Pipeline :=
  {| steps := [];
     context := NewExecutionContext;
     config := default NewPipelineConfig config;
     logger := [];
     stepOutputs := ∅;
     pickCounters := ∅ |}.

(** Assignments to one field of the receiver. *)
Definition set_steps (x : list Step) (p : Pipeline) : Pipeline :=
  {| steps := x; context := context p; config := config p;
     logger := logger p; stepOutputs := stepOutputs p;
     pickCounters := pickCounters p |}.

Definition set_context (x : ExecutionContext) (p : Pipeline) : Pipeline :=
  {| steps := steps p; context := x; config := config p;
     logger := logger p; stepOutputs := stepOutputs p;
     pickCounters := pickCounters p |}.

Definition set_logger (x : list LogEntry) (p : Pipeline) : Pipeline :=
  {| steps := steps p; context := context p; config := config p;
     logger := x; stepOutputs := stepOutputs p;
     pickCounters := pickCounters p |}.

Definition set_stepOutputs (x : gmap string (list iface)) (p : Pipeline) : Pipeline :=
  {| steps := steps p; context := context p; config := config p;
     logger := logger p; stepOutputs := x;
     pickCounters := pickCounters p |}.

Definition set_pickCounters (x : gmap rtype Z) (p : Pipeline) : Pipeline :=
  {| steps := steps p; context := context p; config := config p;
     logger := logger p; stepOutputs := stepOutputs p;
     pickCounters := x |}.

(** A method of [*Pipeline] that may mutate its receiver: the receiver
    after the call (also when the call fails) and the outcome. *)
Definition M (A : Type) : Type := Pipeline → Pipeline * Result A.

Definition ret {A : Type} (a : A) : M A := λ p, (p, Ok a).

Definition bind {A B : Type} (m : M A) (f : A → M B) : M B :=
  λ p, match m p with
       | (p', Ok a) => f a p'
       | (p', Err e) => (p', Err e)
       | (p', Panic k) => (p', Panic k)
       end.

Definition lift {A : Type} (r : Pipeline → Result A) : M A := λ p, (p, r p).

Definition modify (f : Pipeline → Pipeline) : M unit := λ p, (f p, Ok tt).

Definition logf (lvl : Level) (msg : LogMsg) : M unit :=
  modify (λ p, set_logger (logger p ++ [(lvl, msg)]) p).

Notation "x <- c1 ;; c2" := (bind c1 (λ x, c2))
  (at level 100, c1 at next level, right associativity).
Notation "c1 ;;; c2" := (bind c1 (λ _, c2))
  (at level 100, right associativity).

Definition AddStep (name : string) (callable : option Func) : M unit :=
  modify (λ p, set_steps (steps p ++ [{| Name := name; Callable := callable |}]) p) ;;;
  logf DebugLevel (AddedStep name).

Definition AddInitialInputs (inputs : list iface) : M unit :=
  (λ p, let '(ctx, r) := AddInputs (context p) inputs in
        (set_context ctx p, r)) ;;;
  logf DebugLevel (AddedInitialInputs (len inputs)).

(** ** The step orderer *)

(** Step 1 of [reorderStepsIfNeeded]: the map from a step name to a
    pointer [&p.steps[i]].  [p.steps] is not written before the last
    line of the function, so the pointer is the element it points to;
    a later step of the same name overwrites an earlier one. *)
Definition buildStepMap (ss : list Step) : gmap string Step :=
  foldl (λ stepMap s, <[Name s := s]> stepMap) ∅ ss.

(** Step 2: the loop over [config.StepOrder]. *)
Fixpoint orderFromConfig (stepMap : gmap string Step) (order : list string)
    (ordered : list Step) (used : gmap string bool)
  : M (list Step * gmap string bool) :=
  match order with
  | [] => ret (ordered, used)
  | desiredName :: rest =>
      match stepMap !! desiredName with
      | None =>
          logf WarnLevel (StepOrderUnknown desiredName) ;;;
          orderFromConfig stepMap rest ordered used
      | Some st =>
          orderFromConfig stepMap rest (ordered ++ [st]) (<[desiredName := true]> used)
      end
  end.

(** Step 3: the loop over [p.steps]. *)
Definition appendRemaining (ss : list Step) (used : gmap string bool)
    (ordered : list Step) : list Step :=
  foldl (λ ordered s,
           if default false (used !! Name s) then ordered else ordered ++ [s])
        ordered ss.

Definition reorderStepsIfNeeded : M unit :=
  λ p,
    if len (StepOrder (config p)) =? 0 then (p, Ok tt)
    else
      (let stepMap := buildStepMap (steps p) in
       r <- orderFromConfig stepMap (StepOrder (config p)) [] ∅ ;;
       let '(ordered, used) := r in
       modify (λ p, set_steps (appendRemaining (steps p) used ordered) p)) p.

(** ** The argument resolver *)

Definition resolveArgDefault (step : Step) (paramType : rtype) : M Value :=
  λ p,
    if MissingArgPolicy (config p) =? MissingArgPolicyUseLatest then
      let idx := default 0 (pickCounters p !! paramType) in
      match getValueByIndex (context p) paramType idx with
      | Err e => (p, Err (CannotFindValue (Name step) paramType e))
      | Panic k => (p, Panic k)
      | Ok val =>
          let vals := default [] (values (context p) !! paramType) in
          let p' := if idx <? len vals - 1
                    then set_pickCounters (<[paramType := idx + 1]> (pickCounters p)) p
                    else p in
          (p', Ok val)
      end
    else if MissingArgPolicy (config p) =? MissingArgPolicyFail then
      (p, Err (MissingArgumentFail (Name step) paramType))
    else
      (p, Err (UnknownMissingArgPolicy (Name step))).

Definition resolveArgFromInitial (step : Step) (paramType : rtype) (index : Z)
  : M Value :=
  lift (λ p,
    let allInitial := InitialValues (context p) in
    if (index <? 0) || (len allInitial <=? index) then
      Err (InitialIndexOutOfRange (Name step) index (len allInitial))
    else
      match sliceAt allInitial index with
      | Ok val =>
          if negb (AssignableTo (TypeOf val) paramType) then
            Err (InitialNotAssignable (Name step) index (TypeOf val) paramType)
          else Ok val
      | Err e => Err e
      | Panic k => Panic k
      end).

Definition resolveArgFromFunctionOutput (step : Step) (paramType : rtype)
    (funcName : string) (outputIndex : Z) : M Value :=
  lift (λ p,
    match stepOutputs p !! funcName with
    | None => Err (NoRecordedOutputs (Name step) funcName)
    | Some outputs =>
        if (outputIndex <? 0) || (len outputs <=? outputIndex) then
          Err (OutputIndexOutOfRange (Name step) outputIndex funcName (len outputs))
        else
          match sliceAt outputs outputIndex with
          | Ok out =>
              match ValueOf out with
              | None => Panic TypeOnZeroValue      (* val.Type() *)
              | Some val =>
                  if negb (AssignableTo (TypeOf val) paramType) then
                    Err (OutputNotAssignable (Name step) (TypeOf val) funcName paramType)
                  else Ok val
              end
          | Err e => Err e
          | Panic k => Panic k
          end
    end).

Definition resolveArg (step : Step) (paramType : rtype) (binding : ArgBinding.t)
  : M Value :=
  if ArgBinding.Source binding =? ArgSourceInitial then
    resolveArgFromInitial step paramType (ArgBinding.Index binding)
  else if ArgBinding.Source binding =? ArgSourceFunctionOutput then
    resolveArgFromFunctionOutput step paramType
      (ArgBinding.Name binding) (ArgBinding.Index binding)
  else if ArgBinding.Source binding =? ArgSourceDefault then
    resolveArgDefault step paramType
  else
    resolveArgDefault step paramType.

(** ** The orchestrator *)

(** The body of the parameter loop of [executeStep] at index [i]. *)
Definition resolveParam (step : Step) (hasStepCfg : bool)
    (bindings : list (option ArgBinding.t)) (i : nat) (paramType : rtype)
  : M Value :=
  match hasStepCfg, bindings !! i with
  | true, Some (Some binding) => resolveArg step paramType binding
  | _, _ => resolveArgDefault step paramType
  end.

(** The parameter loop, from index [i] over the remaining parameter
    types; the first failure ends it. *)
Fixpoint resolveArgs (step : Step) (hasStepCfg : bool)
    (bindings : list (option ArgBinding.t)) (i : nat) (params : list rtype)
  : M (list Value) :=
  match params with
  | [] => ret []
  | paramType :: rest =>
      argVal <- resolveParam step hasStepCfg bindings i paramType ;;
      args <- resolveArgs step hasStepCfg bindings (S i) rest ;;
      ret (argVal :: args)
  end.

(** [stepCfg, hasStepCfg := p.config.StepConfigs[step.Name]] and the
    read of [stepCfg.ArgBindings]. *)
Definition stepBindings (step : Step)
  : M (bool * list (option ArgBinding.t)) :=
  lift (λ p,
    match StepConfigs (config p) !! Name step with
    | None => Ok (false, [])
    | Some None => Panic NilStepConfig
    | Some (Some stepCfg) => Ok (true, ArgBindings stepCfg)
    end).

Definition executeStep (step : Step) : M unit :=
  match Callable step with
  | None => λ p, (p, Panic NotAFunction)
  | Some fn =>
      cfg <- stepBindings step ;;
      args <- resolveArgs step cfg.1 cfg.2 0 (ParamTypes fn) ;;
      let results := Call fn args in
      modify (λ p, set_context (StoreResults (context p) results) p) ;;;
      let resultInterfaces := map Interface results in
      modify (λ p, set_stepOutputs
                     (<[Name step := default [] (stepOutputs p !! Name step)
                                       ++ resultInterfaces]> (stepOutputs p)) p) ;;;
      logf DebugLevel (StepProduced (Name step) (len results))
  end.

(** ** The output filter *)

Definition filterOutputs (p : Pipeline) : gmap string (list iface) :=
  if len (OutputFilter (config p)) =? 0 then stepOutputs p
  else
    let filterSet : gmap string unit :=
      foldl (λ filterSet name, <[name := tt]> filterSet) ∅ (OutputFilter (config p)) in
    map_fold (λ stepName outputs selected,
                match filterSet !! stepName with
                | Some _ => <[stepName := outputs]> selected
                | None => selected
                end)
             ∅ (stepOutputs p).

(** ** Execute *)

(** One iteration of the loop of [Execute]. *)
Definition runStep (step : Step) : M unit :=
  logf InfoLevel (ExecutingStep (Name step)) ;;;
  modify (set_pickCounters ∅) ;;;
  (λ p, match executeStep step p with
        | (p', Err e) =>
            (set_logger (logger p' ++ [(ErrorLevel, StepFailed (Name step) e)]) p',
             Err e)
        | r => r
        end).

Fixpoint runSteps (ss : list Step) : M unit :=
  match ss with
  | [] => ret tt
  | step :: rest => runStep step ;;; runSteps rest
  end.

(** What a call of [Execute] does: it returns its pair of results, or
    panics. *)
Inductive Outcome (A : Type) : Type :=
  | Returns (a : A)
  | Panics (k : PanicKind).

Definition Execute (p : Pipeline)
  : Pipeline * Outcome (option (gmap string (list iface)) * option PipelineError) :=
  match (reorderStepsIfNeeded ;;; (λ p, runSteps (steps p) p)) p with
  | (p', Err e) => (p', Returns _ (None, Some e))
  | (p', Panic k) => (p', Panics _ k)
  | (p', Ok _) =>
      let finalOutputs := filterOutputs p' in
      (set_logger (logger p' ++ [(InfoLevel, ExecutionComplete)]) p',
       Returns _ (Some finalOutputs, None))
  end.

(** ** Vocabulary of the statements *)

(** Whether the parameter at index [i] goes to [resolveArgDefault]:
    there is no step configuration, no binding at [i], a nil binding, or
    a binding whose source is neither [ArgSourceInitial] nor
    [ArgSourceFunctionOutput]. *)
Definition usesDefault (hasStepCfg : bool)
    (bindings : list (option ArgBinding.t)) (i : nat) : bool :=
  match hasStepCfg, bindings !! i with
  | true, Some (Some binding) =>
      negb (ArgBinding.Source binding =? ArgSourceInitial)
      && negb (ArgBinding.Source binding =? ArgSourceFunctionOutput)
  | _, _ => true
  end.

(** How many of the parameters [params], which sit at the indices [i],
    [i+1], ... of the step, have type [T] and go to [resolveArgDefault]. *)
Fixpoint countDefault (T : rtype) (hasStepCfg : bool)
    (bindings : list (option ArgBinding.t)) (i : nat) (params : list rtype) : nat :=
  match params with
  | [] => O
  | paramType :: rest =>
      ((if usesDefault hasStepCfg bindings i && bool_decide (paramType = T)
        then 1 else 0)
       + countDefault T hasStepCfg bindings (S i) rest)%nat
  end.

(** [p'] is [p] up to the pick counters. *)
Definition onlyCounters (p p' : Pipeline) : Prop :=
  p' = set_pickCounters (pickCounters p') p.

(** The first step of [ss] whose name is [n]; the only one when the
    names of [ss] are distinct. *)
Fixpoint stepNamed (ss : list Step) (n : string) : option Step :=
  match ss with
  | [] => None
  | s :: rest => if decide (Name s = n) then Some s else stepNamed rest n
  end.

(** The warnings for the names of [order] that name no step of [ss], in
    the order of [order]. *)
Definition warningsFor (ss : list Step) (order : list string) : list LogEntry :=
  (λ n, (WarnLevel, StepOrderUnknown n)) <$> filter (λ n, n ∉ Name <$> ss) order.

(** The [used] map after the loop over the configured order. *)
Definition usedAfter (stepMap : gmap string Step) (order : list string)
    (used : gmap string bool) : gmap string bool :=
  foldl (λ used n, match stepMap !! n with
                   | Some _ => <[n := true]> used
                   | None => used
                   end) used order.

(** No pick counter is negative (a missing counter reads as zero). *)
Definition countersNonneg (p : Pipeline) : Prop :=
  ∀ T, 0 ≤ default 0 (pickCounters p !! T).

(** The receiver after a successful [executeStep] that called [fn] with
    [args]. *)
Definition afterCall (step : Step) (fn : Func) (args : list Value) (p : Pipeline)
  : Pipeline :=
  let results := Call fn args in
  let p1 := set_context (StoreResults (context p) results) p in
  let p2 := set_stepOutputs
              (<[Name step := default [] (stepOutputs p1 !! Name step)
                                ++ map Interface results]> (stepOutputs p1)) p1 in
  set_logger (logger p2 ++ [(DebugLevel, StepProduced (Name step) (len results))]) p2.

(** The receiver when [Execute] calls [executeStep step]: the step is
    announced and the pick counters are a fresh map. *)
Definition atStepStart (step : Step) (p : Pipeline) : Pipeline :=
  set_pickCounters ∅
    (set_logger (logger p ++ [(InfoLevel, ExecutingStep (Name step))]) p).

(** [ctx.values[t]]: the sequence of the stored values of type [t], empty
    when the map has no entry for [t]. *)
Definition valuesOf (ctx : ExecutionContext) (t : rtype) : list Value :=
  default [] (values ctx !! t).

(** Every stored value sits under the key of its own type. *)
Definition wellKeyed (ctx : ExecutionContext) : Prop :=
  ∀ t v, v ∈ valuesOf ctx t → TypeOf v = t.

(** What a run may do to the pipeline [p]: the configuration and the
    initial inputs stay, and the sequences of the value store, the entries
    of the step output log and the logger only grow at their end. *)
Definition grows (p p' : Pipeline) : Prop :=
  config p' = config p
  ∧ initialValues (context p') = initialValues (context p)
  ∧ (∀ t, valuesOf (context p) t `prefix_of` valuesOf (context p') t)
  ∧ (∀ n outputs, stepOutputs p !! n = Some outputs →
       ∃ more, stepOutputs p' !! n = Some (outputs ++ more))
  ∧ logger p `prefix_of` logger p'.

(** The configured bindings of the step named [name], as [executeStep]
    reads them when the configuration has no nil entry. *)
Definition bindingsOf (cfg : PipelineConfig) (name : string)
  : bool * list (option ArgBinding.t) :=
  match StepConfigs cfg !! name with
  | Some (Some stepCfg) => (true, ArgBindings stepCfg)
  | _ => (false, [])
  end.


End Model.

Arguments iface : clear implicits.
Arguments Value : clear implicits.
Arguments PipelineError : clear implicits.
Arguments ExecutionContext : clear implicits.
Arguments ExecutionContext rtype {_ _} data.
Arguments Func : clear implicits.
Arguments Step : clear implicits.
Arguments LogMsg : clear implicits.
Arguments LogEntry : clear implicits.
Arguments Pipeline : clear implicits.
Arguments Pipeline rtype {_ _} data.
Arguments M : clear implicits.
Arguments M rtype {_ _} data A.
Arguments Returns {A} a.
Arguments Panics {A} k.

(** ** A concrete instance: the types and values of the demo program

    [reflect.Type] is the type's name, and the data are strings and
    integers (an error value carries its message). *)
Module Demo.

Inductive GoData : Type :=
  | Str (s : string)
  | Int (n : Z)
  | ErrorString (msg : string).

Definition T : Type := string.
Definition tString : T := "string".
Definition tInt : T := "int".
Definition tError : T := "error".                    (* an interface type *)
Definition tErrorString : T := "*errors.errorString".  (* implements error *)

(** Identical types are assignable, and [*errors.errorString] is
    assignable to [error]. *)
Definition AssignableTo (v t : T) : bool :=
  bool_decide (v = t) || (bool_decide (v = tErrorString) && bool_decide (t = tError)).

Definition str (s : string) : iface T GoData := Some (tString, Str s).
Definition int (n : Z) : iface T GoData := Some (tInt, Int n).

Definition mkStep (name : string) (params : list T)
    (f : list (Value T GoData) → list (Value T GoData)) : Step T GoData :=
  {| Name := name; Callable := Some {| ParamTypes := params; Call := f |} |}.

(** [func() string { return "Hello from Step1!" }] *)
Definition Step1 : Step T GoData :=
  mkStep "Step1" [] (λ _, [Concrete tString (Str "Hello from Step1!")]).

(** [func(s string) int { return len(strings.TrimSpace(s)) }]; the
    inputs of the examples have no surrounding blanks. *)
Definition Step2 : Step T GoData :=
  mkStep "Step2" [tString]
    (λ args, match args with
             | [Concrete _ (Str s)] => [Concrete tInt (Int (Z.of_nat (String.length s)))]
             | _ => [Concrete tInt (Int 0)]
             end).

(** [func() error { return nil }] *)
Definition NilError : Step T GoData :=
  mkStep "NilError" [] (λ _, [Boxed tError None]).

(** [func(e error) {}] *)
Definition TakesError : Step T GoData :=
  mkStep "TakesError" [tError] (λ _, []).

(** [func() {}] *)
Definition Silent : Step T GoData := mkStep "Silent" [] (λ _, []).

(** [func(a, b, c string) string { return a + b + c }] *)
Definition Concat3 : Step T GoData :=
  mkStep "Concat3" [tString; tString; tString]
    (λ args, match args with
             | [Concrete _ (Str a); Concrete _ (Str b); Concrete _ (Str c)] =>
                 [Concrete tString (Str (a ++ b ++ c))]
             | _ => []
             end).

Definition withConfig (cfg : PipelineConfig) (ss : list (Step T GoData))
    (ctx : ExecutionContext T GoData) : Pipeline T GoData :=
  {| steps := ss; context := ctx; config := cfg; logger := [];
     stepOutputs := ∅; pickCounters := ∅ |}.

Definition inputsAB : ExecutionContext T GoData :=
  (AddInputs NewExecutionContext [str "a"; str "b"]).1.

Definition strA : Value T GoData := Concrete tString (Str "a").
Definition strB : Value T GoData := Concrete tString (Str "b").

Definition configWith (order : list string) (policy : Z) (filter : list string)
  : PipelineConfig :=
  {| StepOrder := order; MissingArgPolicy := policy; OutputFilter := filter;
     StepConfigs := ∅ |}.

(** [TakesError]'s parameter is bound to output 0 of [NilError]. *)
Definition nilOutputConfig : PipelineConfig :=
  {| StepOrder := [];
     MissingArgPolicy := MissingArgPolicyUseLatest;
     OutputFilter := [];
     StepConfigs :=
       {[ "TakesError" :=
            Some {| ArgBindings :=
                      [Some (ArgBinding.mk ArgSourceFunctionOutput "NilError" 0)] |} ]} |}.

Definition nilOutputPipeline : Pipeline T GoData :=
  withConfig nilOutputConfig [NilError; TakesError] NewExecutionContext.

(** The demo program: two steps, two initial inputs, default policy. *)
Definition demoPipeline : Pipeline T GoData :=
  withConfig NewPipelineConfig [Step1; Step2] inputsAB.

(** One step with three [string] parameters and two stored strings. *)
Definition concatPipeline : Pipeline T GoData :=
  withConfig NewPipelineConfig [Concat3] inputsAB.

(** The demo program under the [Fail] policy. *)
Definition failPolicyPipeline : Pipeline T GoData :=
  withConfig (configWith [] MissingArgPolicyFail []) [Step1; Step2] inputsAB.


(** A configured order that names a step twice. *)
Definition repeatedOrderPipeline : Pipeline T GoData :=
  withConfig (configWith ["Step1"; "Step1"] MissingArgPolicyUseLatest [])
    [Step1; Step2] inputsAB.

(** A configured order with a name that no step has. *)
Definition ghostOrderPipeline : Pipeline T GoData :=
  withConfig (configWith ["Step2"; "Ghost"] MissingArgPolicyUseLatest [])
    [Step1; Step2] inputsAB.

(** A step that returns nothing, named by the output filter. *)
Definition silentPipeline : Pipeline T GoData :=
  withConfig (configWith [] MissingArgPolicyUseLatest ["Silent"; "Ghost"])
    [Silent] NewExecutionContext.

Definition filteredPipeline : Pipeline T GoData :=
  withConfig (configWith [] MissingArgPolicyUseLatest ["Step1"])
    [Step1; Step2] inputsAB.

(** A pipeline that has run, with a filter of its own. *)
Definition ranWithFilter (filter : list string) : Pipeline T GoData :=
  {| steps := [Step1; Step2]; context := inputsAB;
     config := configWith [] MissingArgPolicyUseLatest filter; logger := [];
     stepOutputs := {[ "Step1" := [str "Hello from Step1!"]; "Step2" := [int 1] ]};
     pickCounters := ∅ |}.

(** No step, and a configured order that names one. *)
Definition emptyPipeline : Pipeline T GoData :=
  withConfig (configWith ["Ghost"] MissingArgPolicyUseLatest []) [] NewExecutionContext.

(** The demo program under the [Fail] policy, with the parameter of
    [Step2] bound to the first initial input. *)
Definition boundConfig : PipelineConfig :=
  {| StepOrder := [];
     MissingArgPolicy := MissingArgPolicyFail;
     OutputFilter := [];
     StepConfigs :=
       {[ "Step2" :=
            Some {| ArgBindings := [Some (ArgBinding.mk ArgSourceInitial "" 0)] |} ]} |}.

Definition boundPipeline : Pipeline T GoData :=
  withConfig boundConfig [Step1; Step2] inputsAB.

End Demo.

(** * Properties *)

Section StoreProperties.
Context {rtype : Type} `{Countable rtype} {data : Type}.

Implicit Types (ctx : ExecutionContext rtype data) (p : Pipeline rtype data).
Implicit Types (step : Step rtype data) (t T paramType : rtype).
Implicit Types (vals : list (Value rtype data)).
Implicit Types (ss : list (Step rtype data)) (stepMap : gmap string (Step rtype data)).

(** ** The value store *)

Lemma len_nonneg {A : Type} (s : list A) : 0 ≤ len s.
Proof. unfold len. lia. Qed.

Lemma len_zero_iff {A : Type} (s : list A) : len s = 0 ↔ s = [].
Proof.
  unfold len. destruct s; simpl; split; intros Hs; try done; lia.
Qed.

Lemma sliceAt_in_range {A : Type} (s : list A) (i : Z) :
  0 ≤ i < len s →
  ∃ x, s !! Z.to_nat i = Some x ∧ sliceAt s i = Ok (E := PipelineError rtype) x.
Proof.
  intros Hi. unfold sliceAt.
  destruct (Z.ltb_spec i 0); [lia|].
  destruct (Z.leb_spec (len s) i); [lia|]. simpl.
  destruct (s !! Z.to_nat i) as [x|] eqn:Hx; [eauto|].
  apply lookup_ge_None in Hx. unfold len in *. lia.
Qed.

Lemma getValueByIndex_clamped ctx t (i : Z) vals :
  values ctx !! t = Some vals → vals ≠ [] → 0 ≤ i →
  ∃ v, vals !! Z.to_nat (Z.min i (len vals - 1)) = Some v
       ∧ getValueByIndex ctx t i = Ok v.
Proof.
  intros Hvals Hne Hi. unfold getValueByIndex. rewrite Hvals.
  pose proof (len_zero_iff vals) as Hz.
  pose proof (len_nonneg vals) as Hnn.
  destruct (Z.eqb_spec (len vals) 0) as [Hl|Hl]; [tauto|].
  destruct (Z.ltb_spec i 0); [lia|].
  destruct (Z.leb_spec (len vals) i).
  - rewrite Z.min_r by lia. apply sliceAt_in_range. lia.
  - rewrite Z.min_l by lia. apply sliceAt_in_range. lia.
Qed.

(** C5.  [getValueByIndex] fails with the not-found error when the type
    has no values (no entry, or an empty one), fails with the
    negative-index error when there are values and the index is negative,
    and otherwise returns the value at position [min index (length - 1)]:
    an index past the end is clamped to the last position. *)
Theorem getValueByIndex_spec ctx t (i : Z) :
  let vals := default [] (values ctx !! t) in
  (vals = [] →
     getValueByIndex ctx t i = Err (NoValuesFound t)
     ∧ errorKind (NoValuesFound t) = NotFound)
  ∧ (vals ≠ [] → i < 0 →
     getValueByIndex ctx t i = Err (NegativeIndex t)
     ∧ errorKind (NegativeIndex t) = InvalidIndex)
  ∧ (vals ≠ [] → 0 ≤ i →
     ∃ v, vals !! Z.to_nat (Z.min i (len vals - 1)) = Some v
          ∧ getValueByIndex ctx t i = Ok v).
Proof.
  intros vals. subst vals.
  destruct (values ctx !! t) as [vals|] eqn:Hvals; simpl.
  - split; [|split].
    + intros ->. unfold getValueByIndex. by rewrite Hvals.
    + intros Hne Hi. unfold getValueByIndex. rewrite Hvals.
      pose proof (len_zero_iff vals) as Hz.
      destruct (Z.eqb_spec (len vals) 0) as [Hl|Hl]; [tauto|].
      destruct (Z.ltb_spec i 0); [done|lia].
    + intros Hne Hi. by apply getValueByIndex_clamped.
  - unfold getValueByIndex. rewrite Hvals. split; [|split]; done.
Qed.

(** ** The monad *)

Lemma bind_Ok {A B : Type} (m : M rtype data A) (f : A → M rtype data B) p p' b :
  bind m f p = (p', Ok b) →
  ∃ p1 a, m p = (p1, Ok a) ∧ f a p1 = (p', Ok b).
Proof.
  unfold bind. destruct (m p) as [p1 [a|e|k]]; [eauto|done|done].
Qed.

Lemma bind_Err {A B : Type} (m : M rtype data A) (f : A → M rtype data B) p p' e :
  bind m f p = (p', Err e) →
  m p = (p', Err e) ∨ ∃ p1 a, m p = (p1, Ok a) ∧ f a p1 = (p', Err e).
Proof.
  unfold bind. destruct (m p) as [p1 [a|e'|k]]; [eauto| |done].
  intros [= <- <-]. by left.
Qed.

(** ** What default resolution writes *)

Lemma onlyCounters_refl p : onlyCounters p p.
Proof. by destruct p. Qed.

Lemma onlyCounters_set c p : onlyCounters p (set_pickCounters c p).
Proof. by destruct p. Qed.

Lemma onlyCounters_trans p1 p2 p3 :
  onlyCounters p1 p2 → onlyCounters p2 p3 → onlyCounters p1 p3.
Proof.
  unfold onlyCounters. intros H12 H23. rewrite H23, H12 at 1.
  by destruct p1.
Qed.

Lemma onlyCounters_fields p p' :
  onlyCounters p p' →
  steps p' = steps p ∧ context p' = context p ∧ config p' = config p
  ∧ logger p' = logger p ∧ stepOutputs p' = stepOutputs p.
Proof. unfold onlyCounters. intros ->. by destruct p. Qed.

Lemma resolveArgDefault_onlyCounters step T p p' r :
  resolveArgDefault step T p = (p', r) → onlyCounters p p'.
Proof.
  unfold resolveArgDefault.
  destruct (_ =? MissingArgPolicyUseLatest).
  - destruct (getValueByIndex _ _ _); intros [= <- <-];
      try apply onlyCounters_refl.
    destruct (_ <? _); [apply onlyCounters_set | apply onlyCounters_refl].
  - destruct (_ =? MissingArgPolicyFail); intros [= <- <-];
      apply onlyCounters_refl.
Qed.

(** ** The [UseLatest] policy *)

Lemma resolveArgDefault_UseLatest step T p seq :
  MissingArgPolicy (config p) = MissingArgPolicyUseLatest →
  values (context p) !! T = Some seq → seq ≠ [] →
  0 ≤ default 0 (pickCounters p !! T) →
  ∃ v, seq !! Z.to_nat (Z.min (default 0 (pickCounters p !! T)) (len seq - 1)) = Some v
    ∧ resolveArgDefault step T p
      = (if default 0 (pickCounters p !! T) <? len seq - 1
         then set_pickCounters
                (<[T := default 0 (pickCounters p !! T) + 1]> (pickCounters p)) p
         else p,
         Ok v).
Proof.
  intros Hpol Hseq Hne Hc.
  destruct (getValueByIndex_clamped (context p) T _ seq Hseq Hne Hc) as (v & Hv & Hget).
  exists v. split; [done|].
  unfold resolveArgDefault. rewrite Hpol, Z.eqb_refl, Hget, Hseq. done.
Qed.

Lemma countersNonneg_empty p : pickCounters p = ∅ → countersNonneg p.
Proof. intros Hc T. by rewrite Hc, lookup_empty. Qed.

Lemma resolveArgDefault_nonneg step T p p' r :
  countersNonneg p → resolveArgDefault step T p = (p', r) → countersNonneg p'.
Proof.
  intros Hnn. unfold resolveArgDefault.
  destruct (_ =? MissingArgPolicyUseLatest).
  - destruct (getValueByIndex _ _ _); intros [= <- <-]; try done.
    destruct (_ <? _); [|done].
    intros T'. destruct p; simpl in *.
    destruct (decide (T = T')) as [->|Hne].
    + rewrite lookup_insert_eq. simpl. specialize (Hnn T'). simpl in Hnn. lia.
    + rewrite lookup_insert_ne by done. apply (Hnn T').
  - by destruct (_ =? MissingArgPolicyFail); intros [= <- <-].
Qed.

Lemma resolveArgDefault_other_counter step t T p p' r :
  t ≠ T → resolveArgDefault step t p = (p', r) →
  pickCounters p' !! T = pickCounters p !! T.
Proof.
  intros Hne. unfold resolveArgDefault.
  destruct (_ =? MissingArgPolicyUseLatest).
  - destruct (getValueByIndex _ _ _); intros [= <- <-]; try done.
    destruct (_ <? _); [|done].
    destruct p; simpl. by rewrite lookup_insert_ne.
  - by destruct (_ =? MissingArgPolicyFail); intros [= <- <-].
Qed.

(** ** The output filter *)

Lemma filterSet_lookup (F : list string) :
  ∀ (init : gmap string unit) n,
    is_Some (foldl (λ filterSet name, <[name := tt]> filterSet) init F !! n)
    ↔ is_Some (init !! n) ∨ n ∈ F.
Proof.
  induction F as [|name F IH]; intros init n; simpl.
  - rewrite elem_of_nil. tauto.
  - rewrite IH, elem_of_cons.
    destruct (decide (name = n)) as [->|Hne].
    + rewrite lookup_insert_eq. split; [intros _; right; by left|eauto].
    + rewrite lookup_insert_ne by done. split.
      * intros [?|?]; [by left|right; by right].
      * intros [?|[Heq|?]]; [by left|congruence|by right].
Qed.

(** With a non-empty filter, the filtered log has exactly the entries of
    the log whose name is in the filter. *)
Lemma filterOutputs_lookup p n :
  OutputFilter (config p) ≠ [] →
  filterOutputs p !! n
  = if decide (n ∈ OutputFilter (config p)) then stepOutputs p !! n else None.
Proof.
  intros HF. unfold filterOutputs.
  destruct (Z.eqb_spec (len (OutputFilter (config p))) 0) as [Hl|_];
    [by apply len_zero_iff in Hl|].
  set (filterSet := foldl _ ∅ (OutputFilter (config p))).
  assert (∀ k, is_Some (filterSet !! k) ↔ k ∈ OutputFilter (config p)) as Hset.
  { intros k. unfold filterSet. rewrite filterSet_lookup, lookup_empty.
    split; [intros [[? [=]]|]; done|by right]. }
  revert n. apply (map_fold_weak_ind
    (λ selected (m : gmap string (list (iface rtype data))),
       ∀ n, selected !! n = if decide (n ∈ OutputFilter (config p))
                            then m !! n else None)).
  - intros n. by destruct (decide _).
  - intros k outputs m selected Hk IH n.
    destruct (filterSet !! k) as [[]|] eqn:Hfk.
    + assert (k ∈ OutputFilter (config p)) as Hin by (apply Hset; eauto).
      destruct (decide (k = n)) as [->|Hne].
      * rewrite !lookup_insert_eq. by rewrite decide_True.
      * rewrite !lookup_insert_ne by done. apply IH.
    + assert (k ∉ OutputFilter (config p)) as Hin.
      { intros Hin. apply Hset in Hin as [? ?]. congruence. }
      rewrite IH. destruct (decide (n ∈ _)) as [Hn|]; [|done].
      rewrite lookup_insert_ne; [done|]. by intros ->.
Qed.

(** C8.  Filtering the step output log with a non-empty filter and then
    filtering the result again with the same filter gives what the first
    filtering gave; with an empty filter the result is the log itself. *)
Theorem filterOutputs_idempotent p :
  (OutputFilter (config p) ≠ [] →
     filterOutputs (set_stepOutputs (filterOutputs p) p) = filterOutputs p)
  ∧ (OutputFilter (config p) = [] → filterOutputs p = stepOutputs p).
Proof.
  split.
  - intros HF. apply map_eq. intros n.
    rewrite filterOutputs_lookup by (by destruct p).
    replace (OutputFilter (config (set_stepOutputs (filterOutputs p) p)))
      with (OutputFilter (config p)) by (by destruct p).
    replace (stepOutputs (set_stepOutputs (filterOutputs p) p))
      with (filterOutputs p) by (by destruct p).
    rewrite (filterOutputs_lookup p n HF).
    by destruct (decide _).
  - intros HF. unfold filterOutputs. by rewrite HF.
Qed.

(** ** The step orderer *)

Lemma stepNamed_None ss n : n ∉ Name <$> ss → stepNamed ss n = None.
Proof.
  induction ss as [|s ss IH]; simpl; [done|].
  rewrite not_elem_of_cons. intros [Hne Hn].
  destruct (decide (Name s = n)); [congruence|by apply IH].
Qed.

Lemma stepNamed_Some ss n s : stepNamed ss n = Some s → s ∈ ss ∧ Name s = n.
Proof.
  induction ss as [|s' ss IH]; simpl; [done|].
  destruct (decide (Name s' = n)) as [Heq|Hne].
  - intros [= <-]. split; [left|done].
  - intros Hs. apply IH in Hs as [? ?]. split; [by right|done].
Qed.

Lemma stepNamed_elem ss s :
  NoDup (Name <$> ss) → s ∈ ss → stepNamed ss (Name s) = Some s.
Proof.
  induction ss as [|s' ss IH]; simpl; [by rewrite elem_of_nil|].
  rewrite NoDup_cons, elem_of_cons. intros [Hfresh Hnd] [->|Hin].
  - by rewrite decide_True.
  - rewrite decide_False; [by apply IH|].
    intros Heq. apply Hfresh. rewrite Heq. by apply list_elem_of_fmap_2.
Qed.

Lemma stepNamed_snoc ss s n :
  stepNamed (ss ++ [s]) n
  = match stepNamed ss n with
    | Some x => Some x
    | None => if decide (Name s = n) then Some s else None
    end.
Proof.
  induction ss as [|s' ss IH]; simpl; [done|].
  by destruct (decide (Name s' = n)).
Qed.

Lemma buildStepMap_lookup ss :
  NoDup (Name <$> ss) → ∀ n, buildStepMap ss !! n = stepNamed ss n.
Proof.
  induction ss as [|s ss IH] using rev_ind; intros Hnd n; [done|].
  rewrite fmap_app, NoDup_app in Hnd. destruct Hnd as (Hnd & Hfresh & _).
  unfold buildStepMap. rewrite foldl_snoc, stepNamed_snoc.
  fold (buildStepMap ss).
  destruct (decide (Name s = n)) as [<-|Hne].
  - rewrite lookup_insert_eq, stepNamed_None; [done|].
    intros Hin. apply (Hfresh _ Hin). simpl. left.
  - rewrite lookup_insert_ne, IH by done. by destruct (stepNamed ss n).
Qed.

Lemma buildStepMap_is_Some ss n :
  is_Some (buildStepMap ss !! n) ↔ n ∈ Name <$> ss.
Proof.
  induction ss as [|s ss IH] using rev_ind.
  - unfold buildStepMap. simpl. rewrite lookup_empty, elem_of_nil.
    split; [by intros [? ?]|done].
  - unfold buildStepMap. rewrite foldl_snoc. fold (buildStepMap ss).
    rewrite fmap_app, elem_of_app. simpl. rewrite list_elem_of_singleton.
    destruct (decide (Name s = n)) as [<-|Hne].
    + rewrite lookup_insert_eq. split; [by right|eauto].
    + rewrite lookup_insert_ne, IH by done. split; [by left|].
      intros [?|?]; [done|congruence].
Qed.

Lemma set_logger_app_nil p : set_logger (logger p ++ []) p = p.
Proof. destruct p. unfold set_logger. simpl. by rewrite app_nil_r. Qed.

(** The loop over the configured order: the steps of the known names
    are appended, one per occurrence of the name, and each unknown name
    is logged as a warning. *)
Lemma orderFromConfig_spec stepMap (order : list string) :
  ∀ ordered used p,
    orderFromConfig stepMap order ordered used p
    = (set_logger
         (logger p ++ ((λ n, (WarnLevel, StepOrderUnknown n))
                         <$> filter (λ n, stepMap !! n = None) order)) p,
       Ok (ordered ++ omap (λ n, stepMap !! n) order,
           usedAfter stepMap order used)).
Proof.
  induction order as [|n order IH]; intros ordered used p; simpl.
  - unfold ret. by rewrite set_logger_app_nil, app_nil_r.
  - destruct (stepMap !! n) as [st|] eqn:Hn.
    + rewrite IH, filter_cons_False by (by rewrite Hn).
      unfold usedAfter. simpl. rewrite ?Hn, <- app_assoc. done.
    + unfold bind, logf, modify. rewrite IH, filter_cons_True by done.
      unfold usedAfter. simpl. rewrite ?Hn.
      destruct p. unfold set_logger. simpl. by rewrite <- app_assoc.
Qed.

Lemma usedAfter_cons stepMap m (order : list string) used :
  usedAfter stepMap (m :: order) used
  = usedAfter stepMap order
      match stepMap !! m with Some _ => <[m := true]> used | None => used end.
Proof. done. Qed.

Lemma usedAfter_lookup stepMap (order : list string) :
  ∀ used n,
    default false (usedAfter stepMap order used !! n)
    = default false (used !! n)
      || bool_decide (n ∈ order ∧ is_Some (stepMap !! n)).
Proof.
  induction order as [|m order IH]; intros used n.
  - rewrite bool_decide_eq_false_2, orb_false_r; [done|].
    rewrite elem_of_nil. tauto.
  - rewrite usedAfter_cons, IH.
    destruct (stepMap !! m) as [st|] eqn:Hm.
    + destruct (decide (m = n)) as [->|Hne].
      * rewrite lookup_insert_eq. simpl.
        rewrite (bool_decide_eq_true_2 (n ∈ n :: order ∧ _)), orb_true_r; [done|].
        split; [left|by rewrite Hm].
      * rewrite lookup_insert_ne by done. f_equal.
        apply bool_decide_ext. rewrite elem_of_cons.
        split; [intros [? ?]; split; [by right|done]|].
        intros [[->|?] HS]; [done|by split].
    + f_equal. apply bool_decide_ext. rewrite elem_of_cons.
      split; [intros [? ?]; split; [by right|done]|].
      intros [[->|?] HS]; [|done]. rewrite Hm in HS. by destruct HS.
Qed.

Lemma appendRemaining_spec ss used :
  ∀ ordered,
    appendRemaining ss used ordered
    = ordered ++ filter (λ s, default false (used !! Name s) = false) ss.
Proof.
  unfold appendRemaining.
  induction ss as [|s ss IH]; intros ordered; simpl.
  - by rewrite app_nil_r.
  - rewrite IH. destruct (default false (used !! Name s)) eqn:Hu.
    + by rewrite filter_cons_False by (by rewrite Hu).
    + rewrite filter_cons_True by done. by rewrite <- app_assoc.
Qed.

Lemma filter_ext_elem {A : Type} (P Q : A → Prop)
    `{!∀ x, Decision (P x)} `{!∀ x, Decision (Q x)} (l : list A) :
  (∀ x, x ∈ l → P x ↔ Q x) → filter P l = filter Q l.
Proof.
  induction l as [|x l IH]; intros HPQ; [done|].
  assert (filter P l = filter Q l) as Hl.
  { apply IH. intros y Hy. apply HPQ. by right. }
  destruct (decide (P x)) as [HP|HP].
  - rewrite !filter_cons_True, Hl; [done| |done]. apply HPQ; [left|done].
  - rewrite !filter_cons_False, Hl; [done| |done].
    intros HQ. apply HP, HPQ; [left|done].
Qed.

Lemma omap_ext_all {A B : Type} (f g : A → option B) (l : list A) :
  (∀ x, f x = g x) → omap f l = omap g l.
Proof.
  intros Hfg. induction l as [|x l IH]; [done|].
  simpl. rewrite Hfg. destruct (g x); [f_equal|]; exact IH.
Qed.

Lemma reorderStepsIfNeeded_unfold p :
  StepOrder (config p) ≠ [] →
  reorderStepsIfNeeded p
  = (set_steps
       (omap (λ n, buildStepMap (steps p) !! n) (StepOrder (config p))
        ++ filter (λ s, default false
                          (usedAfter (buildStepMap (steps p))
                             (StepOrder (config p)) ∅ !! Name s) = false)
                  (steps p))
       (set_logger
          (logger p ++ ((λ n, (WarnLevel, StepOrderUnknown n))
                          <$> filter (λ n, buildStepMap (steps p) !! n = None)
                                     (StepOrder (config p)))) p),
     Ok tt).
Proof.
  intros HO. unfold reorderStepsIfNeeded.
  destruct (Z.eqb_spec (len (StepOrder (config p))) 0) as [Hl|_];
    [by apply len_zero_iff in Hl|].
  unfold bind. rewrite orderFromConfig_spec. unfold modify.
  by rewrite appendRemaining_spec.
Qed.

(** The orderer never fails, and writes nothing but the steps and the
    logger. *)
Lemma reorderStepsIfNeeded_frame p :
  ∃ p', reorderStepsIfNeeded p = (p', Ok tt)
        ∧ context p' = context p ∧ config p' = config p
        ∧ stepOutputs p' = stepOutputs p ∧ pickCounters p' = pickCounters p.
Proof.
  destruct (decide (StepOrder (config p) = [])) as [HO|HO].
  - exists p. unfold reorderStepsIfNeeded. by rewrite HO.
  - rewrite reorderStepsIfNeeded_unfold by done. eauto 10.
Qed.

Lemma known_steps_NoDup ss (order : list string) :
  NoDup order → NoDup (omap (stepNamed ss) order).
Proof.
  induction order as [|n order IH]; simpl; [constructor|].
  rewrite NoDup_cons. intros [Hn Hnd].
  destruct (stepNamed ss n) as [s|] eqn:Hs; [|by apply IH].
  apply NoDup_cons. split; [|by apply IH].
  rewrite list_elem_of_omap. intros (m & Hm & Hsm).
  apply stepNamed_Some in Hs as [_ Hs]. apply stepNamed_Some in Hsm as [_ Hsm].
  congruence.
Qed.

Lemma known_steps_permutation ss (order : list string) :
  NoDup (Name <$> ss) → NoDup order →
  omap (stepNamed ss) order ≡ₚ filter (λ s, Name s ∈ order) ss.
Proof.
  intros Hss Horder. apply NoDup_Permutation.
  - by apply known_steps_NoDup.
  - apply NoDup_filter. by eapply NoDup_fmap_1.
  - intros s. rewrite list_elem_of_omap, list_elem_of_filter. split.
    + intros (n & Hn & Hs). apply stepNamed_Some in Hs as [? ?]. by subst.
    + intros [Hn Hs]. exists (Name s). split; [done|by apply stepNamed_elem].
Qed.

(** C2, as the code has it.  For registered steps [S] with distinct
    names and any configured order [O], the reordering never fails; the
    new sequence is, for each occurrence in [O] of the name of a
    registered step, that step, in the order of [O], followed by the
    steps of [S] whose name does not occur in [O], in their order in
    [S]; the names of [O] that name no step are logged as warnings and
    add nothing; an empty [O] leaves the pipeline as it is; and when no
    name is repeated in [O], the new sequence is a permutation of [S]
    (each step appears exactly once). *)
Theorem reorderStepsIfNeeded_spec p :
  NoDup (Name <$> steps p) →
  ∃ p',
    reorderStepsIfNeeded p = (p', Ok tt)
    ∧ steps p' = omap (stepNamed (steps p)) (StepOrder (config p))
                 ++ filter (λ s, Name s ∉ StepOrder (config p)) (steps p)
    ∧ logger p' = logger p ++ warningsFor (steps p) (StepOrder (config p))
    ∧ (StepOrder (config p) = [] → p' = p)
    ∧ (NoDup (StepOrder (config p)) → steps p' ≡ₚ steps p).
Proof.
  intros Hnd.
  assert (omap (stepNamed (steps p)) (StepOrder (config p))
          ++ filter (λ s, Name s ∉ StepOrder (config p)) (steps p)
          ≡ₚ steps p ∨ ¬ NoDup (StepOrder (config p))) as Hperm.
  { destruct (decide (NoDup (StepOrder (config p)))) as [HO|HO]; [left|by right].
    rewrite known_steps_permutation by done. apply filter_app_complement. }
  destruct (decide (StepOrder (config p) = [])) as [HO|HO].
  - exists p. unfold reorderStepsIfNeeded, warningsFor. rewrite HO. simpl.
    rewrite app_nil_r. repeat split; try done.
    clear. generalize (steps p). intros ss.
    induction ss as [|s ss IH]; [done|].
    rewrite filter_cons_True by apply not_elem_of_nil.
    by rewrite <- IH.
  - eexists. split; [by apply reorderStepsIfNeeded_unfold|]. simpl.
    assert (omap (λ n, buildStepMap (steps p) !! n) (StepOrder (config p))
            ++ filter (λ s, default false
                              (usedAfter (buildStepMap (steps p))
                                 (StepOrder (config p)) ∅ !! Name s) = false)
                      (steps p)
            = omap (stepNamed (steps p)) (StepOrder (config p))
              ++ filter (λ s, Name s ∉ StepOrder (config p)) (steps p)) as Heq.
    { f_equal.
      - apply omap_ext_all. intros n. by apply buildStepMap_lookup.
      - apply filter_ext_elem. intros s Hs.
        rewrite usedAfter_lookup, lookup_empty. simpl.
        rewrite bool_decide_eq_false. split.
        + intros Hno Hin. apply Hno. split; [done|].
          apply buildStepMap_is_Some. by apply list_elem_of_fmap_2.
        + intros Hno [Hin _]. done. }
    split; [done|]. split; [|split; [done|]].
    + unfold warningsFor. do 2 f_equal. apply list_filter_iff. intros n.
      rewrite <- buildStepMap_is_Some, eq_None_not_Some. done.
    + intros HOnd. rewrite Heq. by destruct Hperm.
Qed.


(** ** Facts for the orchestrator *)

(** The parameters that go to default resolution: those of a step without
    configuration, those past the end of the bindings, those with a nil
    binding and those with a [Default] binding. *)
Lemma usesDefault_cases hasStepCfg (bindings : list (option ArgBinding.t)) (i : nat) :
  (hasStepCfg = false → usesDefault hasStepCfg bindings i = true)
  ∧ (bindings !! i = None → usesDefault hasStepCfg bindings i = true)
  ∧ (bindings !! i = Some None → usesDefault hasStepCfg bindings i = true)
  ∧ (∀ binding, bindings !! i = Some (Some binding) →
       ArgBinding.Source binding = ArgSourceDefault →
       usesDefault hasStepCfg bindings i = true).
Proof.
  unfold usesDefault. repeat split.
  - by intros ->.
  - intros ->. by destruct hasStepCfg.
  - intros ->. by destruct hasStepCfg.
  - intros binding -> ->. by destruct hasStepCfg.
Qed.

Lemma atStepStart_set_pickCounters step c p :
  atStepStart step (set_pickCounters c p) = atStepStart step p.
Proof. done. Qed.

Lemma stepBindings_state step p p' r :
  stepBindings step p = (p', r) → p' = p.
Proof. unfold stepBindings, lift. by intros [= <- _]. Qed.

Lemma reorderStepsIfNeeded_fields p p0 r :
  reorderStepsIfNeeded p = (p0, r) →
  context p0 = context p ∧ config p0 = config p
  ∧ stepOutputs p0 = stepOutputs p.
Proof.
  destruct (reorderStepsIfNeeded_frame p) as (p' & -> & Hctx & Hcfg & Hout & _).
  by intros [= <- _].
Qed.

Lemma resolveArgDefault_Fail step T p :
  MissingArgPolicy (config p) = MissingArgPolicyFail →
  resolveArgDefault step T p = (p, Err (MissingArgumentFail (Name step) T)).
Proof. intros Hpol. unfold resolveArgDefault. by rewrite Hpol. Qed.

End StoreProperties.

Section Properties.
Context {rtype : Type} `{Countable rtype} {data : Type}.
Variable AssignableTo : rtype → rtype → bool.

Implicit Types (ctx : ExecutionContext rtype data) (p : Pipeline rtype data).
Implicit Types (step : Step rtype data) (t T paramType : rtype).
Implicit Types (vals : list (Value rtype data)).
Implicit Types (ss : list (Step rtype data)) (stepMap : gmap string (Step rtype data)).


(** ** Explicit bindings *)

Lemma resolveArgFromInitial_cases step paramType (i : Z) p :
  let allInitial := initialValues (context p) in
  (¬ (0 ≤ i < len allInitial) →
     resolveArgFromInitial AssignableTo step paramType i p
       = (p, Err (InitialIndexOutOfRange (Name step) i (len allInitial)))
     ∧ errorKind (rtype := rtype)
         (InitialIndexOutOfRange (Name step) i (len allInitial)) = IndexOutOfRange)
  ∧ (0 ≤ i < len allInitial →
     ∃ val, allInitial !! Z.to_nat i = Some val
       ∧ (AssignableTo (TypeOf val) paramType = false →
            resolveArgFromInitial AssignableTo step paramType i p
              = (p, Err (InitialNotAssignable (Name step) i (TypeOf val) paramType))
            ∧ errorKind (InitialNotAssignable (Name step) i (TypeOf val) paramType)
              = TypeMismatch)
       ∧ (AssignableTo (TypeOf val) paramType = true →
            resolveArgFromInitial AssignableTo step paramType i p = (p, Ok val))).
Proof.
  intros allInitial. subst allInitial.
  unfold resolveArgFromInitial, lift, InitialValues. split.
  - intros Hi.
    destruct (Z.ltb_spec i 0); simpl; [done|].
    destruct (Z.leb_spec (len (initialValues (context p))) i); [done|lia].
  - intros Hi.
    destruct (sliceAt_in_range (rtype := rtype) (initialValues (context p)) i Hi) as (val & Hval & Hat).
    exists val. split; [done|].
    destruct (Z.ltb_spec i 0); [lia|].
    destruct (Z.leb_spec (len (initialValues (context p))) i); [lia|]. simpl.
    rewrite Hat. split; intros ->; done.
Qed.

Lemma resolveArg_Initial step paramType binding :
  ArgBinding.Source binding = ArgSourceInitial →
  resolveArg AssignableTo step paramType binding
  = resolveArgFromInitial AssignableTo step paramType (ArgBinding.Index binding).
Proof. intros Hsrc. unfold resolveArg. by rewrite Hsrc. Qed.

(** C6.  Resolving a parameter through an [Initial] binding with index
    [i] fails with the index-out-of-range error unless
    [0 ≤ i < len(initial inputs)], fails with the type-mismatch error
    unless the type of the value at position [i] is assignable to the
    parameter's type, and otherwise returns that very value; the pipeline
    is left as it was. *)
Theorem resolveArg_Initial_spec step paramType binding p :
  ArgBinding.Source binding = ArgSourceInitial →
  let i := ArgBinding.Index binding in
  let allInitial := initialValues (context p) in
  (¬ (0 ≤ i < len allInitial) →
     resolveArg AssignableTo step paramType binding p
       = (p, Err (InitialIndexOutOfRange (Name step) i (len allInitial)))
     ∧ errorKind (rtype := rtype)
         (InitialIndexOutOfRange (Name step) i (len allInitial)) = IndexOutOfRange)
  ∧ (0 ≤ i < len allInitial →
     ∃ val, allInitial !! Z.to_nat i = Some val
       ∧ (AssignableTo (TypeOf val) paramType = false →
            resolveArg AssignableTo step paramType binding p
              = (p, Err (InitialNotAssignable (Name step) i (TypeOf val) paramType))
            ∧ errorKind (InitialNotAssignable (Name step) i (TypeOf val) paramType)
              = TypeMismatch)
       ∧ (AssignableTo (TypeOf val) paramType = true →
            resolveArg AssignableTo step paramType binding p = (p, Ok val))).
Proof.
  intros Hsrc i allInitial. rewrite (resolveArg_Initial _ _ _ Hsrc).
  apply resolveArgFromInitial_cases.
Qed.

(** What [resolveArgFromFunctionOutput] does, case by case.  The step
    output log holds [interface{}] values; an entry that is nil has no
    type, and [reflect.ValueOf(out).Type()] panics on it. *)
Lemma resolveArgFromFunctionOutput_cases step paramType (n : string) (i : Z) p :
  match stepOutputs p !! n with
  | None =>
      resolveArgFromFunctionOutput AssignableTo step paramType n i p
        = (p, Err (NoRecordedOutputs (Name step) n))
  | Some outputs =>
      (¬ (0 ≤ i < len outputs) →
         resolveArgFromFunctionOutput AssignableTo step paramType n i p
           = (p, Err (OutputIndexOutOfRange (Name step) i n (len outputs))))
      ∧ (0 ≤ i < len outputs →
         ∃ out, outputs !! Z.to_nat i = Some out
           ∧ resolveArgFromFunctionOutput AssignableTo step paramType n i p
             = (p, match out with
                   | None => Panic TypeOnZeroValue
                   | Some (vt, d) =>
                       if AssignableTo vt paramType then Ok (Concrete vt d)
                       else Err (OutputNotAssignable (Name step) vt n paramType)
                   end))
  end.
Proof.
  unfold resolveArgFromFunctionOutput, lift.
  destruct (stepOutputs p !! n) as [outputs|]; [|done]. split.
  - intros Hi.
    destruct (Z.ltb_spec i 0); simpl; [done|].
    destruct (Z.leb_spec (len outputs) i); [done|lia].
  - intros Hi.
    destruct (sliceAt_in_range (rtype := rtype) outputs i Hi) as (out & Hout & Hat).
    exists out. split; [done|].
    destruct (Z.ltb_spec i 0); [lia|].
    destruct (Z.leb_spec (len outputs) i); [lia|]. simpl.
    rewrite Hat. destruct out as [[vt d]|]; simpl; [|done].
    by destruct (AssignableTo vt paramType).
Qed.

Lemma resolveArg_FunctionOutput step paramType binding :
  ArgBinding.Source binding = ArgSourceFunctionOutput →
  resolveArg AssignableTo step paramType binding
  = resolveArgFromFunctionOutput AssignableTo step paramType
      (ArgBinding.Name binding) (ArgBinding.Index binding).
Proof.
  intros Hsrc. unfold resolveArg. by rewrite Hsrc.
Qed.

(** ** The parameter loop *)

Lemma resolveArg_explicit step T binding p :
  (ArgBinding.Source binding =? ArgSourceInitial)
    || (ArgBinding.Source binding =? ArgSourceFunctionOutput) = true →
  ∃ r, resolveArg AssignableTo step T binding p = (p, r).
Proof.
  unfold resolveArg, resolveArgFromInitial, resolveArgFromFunctionOutput, lift.
  destruct (_ =? ArgSourceInitial); [eauto|].
  destruct (_ =? ArgSourceFunctionOutput); [eauto|done].
Qed.

Lemma resolveParam_usesDefault step hasStepCfg bindings i T :
  usesDefault hasStepCfg bindings i = true →
  resolveParam AssignableTo step hasStepCfg bindings i T = resolveArgDefault step T.
Proof.
  unfold usesDefault, resolveParam, resolveArg.
  destruct hasStepCfg; [|done].
  destruct (bindings !! i) as [[binding|]|]; [|done|done].
  destruct (_ =? ArgSourceInitial); [done|].
  destruct (_ =? ArgSourceFunctionOutput); [done|].
  by destruct (_ =? ArgSourceDefault).
Qed.

Lemma resolveParam_explicit step hasStepCfg bindings i T p :
  usesDefault hasStepCfg bindings i = false →
  ∃ r, resolveParam AssignableTo step hasStepCfg bindings i T p = (p, r).
Proof.
  unfold usesDefault, resolveParam.
  destruct hasStepCfg; [|done].
  destruct (bindings !! i) as [[binding|]|]; [|done|done].
  intros Hsrc. apply resolveArg_explicit.
  destruct (_ =? ArgSourceInitial); [done|].
  by destruct (_ =? ArgSourceFunctionOutput).
Qed.

Lemma resolveParam_onlyCounters step hasStepCfg bindings i T p p' r :
  resolveParam AssignableTo step hasStepCfg bindings i T p = (p', r) →
  onlyCounters p p'.
Proof.
  destruct (usesDefault hasStepCfg bindings i) eqn:Hd.
  - rewrite resolveParam_usesDefault by done.
    apply resolveArgDefault_onlyCounters.
  - destruct (resolveParam_explicit step hasStepCfg bindings i T p Hd) as [r' ->].
    intros [= <- <-]. apply onlyCounters_refl.
Qed.

Lemma resolveArgs_onlyCounters step hasStepCfg bindings params :
  ∀ i p p' r,
    resolveArgs AssignableTo step hasStepCfg bindings i params p = (p', r) →
    onlyCounters p p'.
Proof.
  induction params as [|T rest IH]; intros i p p' r; simpl.
  - intros [= <- <-]. apply onlyCounters_refl.
  - unfold bind at 1.
    destruct (resolveParam _ _ _ _ _ _ p) as [p1 r1] eqn:H1.
    apply resolveParam_onlyCounters in H1.
    destruct r1 as [v|e|k]; try (intros [= <- <-]; done).
    unfold bind at 1.
    destruct (resolveArgs _ _ _ _ _ _ p1) as [p2 r2] eqn:H2.
    apply IH in H2.
    destruct r2 as [vs|e|k]; intros [= <- <-];
      by eapply onlyCounters_trans.
Qed.

(** The parameter loop over [pre ++ T :: post] runs the loop over [pre]
    and then resolves [T] at index [length pre]. *)
Lemma resolveArgs_reaches step hasStepCfg bindings pre T post :
  ∀ i p p1 args,
    resolveArgs AssignableTo step hasStepCfg bindings i pre p = (p1, Ok args) →
    resolveArgs AssignableTo step hasStepCfg bindings i (pre ++ T :: post) p
    = match resolveParam AssignableTo step hasStepCfg bindings (i + length pre) T p1 with
      | (p2, Ok v) =>
          match resolveArgs AssignableTo step hasStepCfg bindings
                  (S (i + length pre)) post p2 with
          | (p3, Ok vs) => (p3, Ok (args ++ v :: vs))
          | (p3, Err e) => (p3, Err e)
          | (p3, Panic k) => (p3, Panic k)
          end
      | (p2, Err e) => (p2, Err e)
      | (p2, Panic k) => (p2, Panic k)
      end.
Proof.
  induction pre as [|t pre IH]; intros i p p1 args; simpl.
  - intros [= <- <-]. rewrite Nat.add_0_r. unfold bind, ret.
    by destruct (resolveParam _ _ _ _ _ _ p) as [p2 [v|e|k]].
  - intros Hpre. apply bind_Ok in Hpre as (pa & v0 & Hv0 & Hpre).
    apply bind_Ok in Hpre as (pb & vs0 & Hvs0 & Hret).
    injection Hret as <- <-.
    unfold bind at 1. rewrite Hv0.
    unfold bind at 1. rewrite (IH _ _ _ _ Hvs0).
    replace (S i + length pre)%nat with (i + S (length pre))%nat by lia.
    destruct (resolveParam _ _ _ _ _ _ pb) as [p2 [v|e|k]]; try done.
    by destruct (resolveArgs _ _ _ _ _ _ p2) as [p3 [vs|e|k]].
Qed.

(** ** The [UseLatest] policy *)

Lemma resolveParam_nonneg step hasStepCfg bindings i T p p' r :
  countersNonneg p →
  resolveParam AssignableTo step hasStepCfg bindings i T p = (p', r) →
  countersNonneg p'.
Proof.
  intros Hnn. destruct (usesDefault hasStepCfg bindings i) eqn:Hd.
  - rewrite resolveParam_usesDefault by done. by apply resolveArgDefault_nonneg.
  - destruct (resolveParam_explicit step hasStepCfg bindings i T p Hd) as [r' ->].
    by intros [= <- <-].
Qed.

Lemma resolveArgs_nonneg step hasStepCfg bindings params :
  ∀ i p p' r,
    countersNonneg p →
    resolveArgs AssignableTo step hasStepCfg bindings i params p = (p', r) →
    countersNonneg p'.
Proof.
  induction params as [|T rest IH]; intros i p p' r Hnn; simpl.
  - by intros [= <- <-].
  - unfold bind at 1.
    destruct (resolveParam _ _ _ _ _ _ p) as [p1 r1] eqn:H1.
    apply resolveParam_nonneg in H1; [|done].
    destruct r1 as [v|e|k]; try (by intros [= <- <-]).
    unfold bind at 1.
    destruct (resolveArgs _ _ _ _ _ _ p1) as [p2 r2] eqn:H2.
    apply IH in H2; [|done].
    by destruct r2 as [vs|e|k]; intros [= <- <-].
Qed.

(** C10.  Under [UseLatest], within a step (the pick counters are a fresh
    map when the step starts, and the parameters before this one have
    been resolved), a parameter that goes to default resolution and whose
    type has a non-empty sequence in the value store is resolved
    successfully: its pick counter is not negative, so neither error
    branch of [getValueByIndex] is taken. *)
Theorem useLatest_default_succeeds p0 step hasStepCfg bindings pre args p1 T seq :
  MissingArgPolicy (config p0) = MissingArgPolicyUseLatest →
  pickCounters p0 = ∅ →
  resolveArgs AssignableTo step hasStepCfg bindings 0 pre p0 = (p1, Ok args) →
  usesDefault hasStepCfg bindings (length pre) = true →
  values (context p1) !! T = Some seq → seq ≠ [] →
  0 ≤ default 0 (pickCounters p1 !! T)
  ∧ ∃ v p2,
      resolveParam AssignableTo step hasStepCfg bindings (length pre) T p1 = (p2, Ok v)
      ∧ getValueByIndex (context p1) T (default 0 (pickCounters p1 !! T)) = Ok v.
Proof.
  intros Hpol Hfresh Hpre Hd Hseq Hne.
  pose proof (resolveArgs_nonneg _ _ _ _ _ _ _ _
                (countersNonneg_empty p0 Hfresh) Hpre) as Hnn.
  pose proof (resolveArgs_onlyCounters _ _ _ _ _ _ _ _ Hpre) as Hframe.
  apply onlyCounters_fields in Hframe as (_ & _ & Hcfg & _).
  split; [apply Hnn|].
  rewrite resolveParam_usesDefault by done.
  destruct (resolveArgDefault_UseLatest step T p1 seq) as (v & Hv & Hres);
    [congruence|done|done|apply Hnn|].
  destruct (getValueByIndex_clamped (context p1) T _ seq Hseq Hne (Hnn T))
    as (v' & Hv' & Hget).
  rewrite Hres. eexists v, _. split; [done|]. congruence.
Qed.

(** One iteration of the parameter loop moves the pick counter of [T]
    from [min j0 (k-1)] to [min (j0+1) (k-1)] when the parameter has type
    [T] and goes to default resolution, and leaves it alone otherwise. *)
Lemma resolveParam_pick step hasStepCfg bindings i t T seq p p1 v (j0 : nat) :
  MissingArgPolicy (config p) = MissingArgPolicyUseLatest →
  values (context p) !! T = Some seq → seq ≠ [] →
  default 0 (pickCounters p !! T) = Z.min (Z.of_nat j0) (len seq - 1) →
  resolveParam AssignableTo step hasStepCfg bindings i t p = (p1, Ok v) →
  default 0 (pickCounters p1 !! T)
  = Z.min (Z.of_nat (j0 + (if usesDefault hasStepCfg bindings i && bool_decide (t = T)
                           then 1 else 0)))
          (len seq - 1).
Proof.
  intros Hpol Hseq Hne Hc.
  assert (1 ≤ len seq) as Hk.
  { pose proof (len_zero_iff seq). pose proof (len_nonneg seq).
    destruct (decide (len seq = 0)); [tauto|lia]. }
  destruct (usesDefault hasStepCfg bindings i) eqn:Hd; simpl.
  - rewrite resolveParam_usesDefault by done.
    case_bool_decide as Ht.
    + subst t.
      destruct (resolveArgDefault_UseLatest step T p seq) as (v' & Hv' & ->);
        [done|done|done|lia|].
      intros [= <- <-]. rewrite Hc.
      destruct (Z.ltb_spec (Z.min (Z.of_nat j0) (len seq - 1)) (len seq - 1)).
      * destruct p; simpl. rewrite lookup_insert_eq. simpl. lia.
      * rewrite Hc. lia.
    + intros Hres. rewrite Nat.add_0_r, <- Hc. f_equal.
      by eapply resolveArgDefault_other_counter.
  - destruct (resolveParam_explicit step hasStepCfg bindings i t p Hd) as [r' ->].
    intros [= <- _]. by rewrite Nat.add_0_r.
Qed.

Lemma resolveArgs_pick step hasStepCfg bindings T seq params :
  ∀ i p p' args (j0 : nat),
    MissingArgPolicy (config p) = MissingArgPolicyUseLatest →
    values (context p) !! T = Some seq → seq ≠ [] →
    default 0 (pickCounters p !! T) = Z.min (Z.of_nat j0) (len seq - 1) →
    resolveArgs AssignableTo step hasStepCfg bindings i params p = (p', Ok args) →
    default 0 (pickCounters p' !! T)
    = Z.min (Z.of_nat (j0 + countDefault T hasStepCfg bindings i params))
            (len seq - 1).
Proof.
  induction params as [|t rest IH]; intros i p p' args j0 Hpol Hseq Hne Hc; simpl.
  - intros [= <- <-]. by rewrite Nat.add_0_r.
  - intros Hres. apply bind_Ok in Hres as (p1 & v & Hv & Hres).
    apply bind_Ok in Hres as (p2 & vs & Hvs & Hret).
    injection Hret as <- <-.
    pose proof (resolveParam_onlyCounters _ _ _ _ _ _ _ _ Hv) as Hframe.
    apply onlyCounters_fields in Hframe as (_ & Hctx & Hcfg & _).
    pose proof (resolveParam_pick _ _ _ _ _ _ _ _ _ _ _ Hpol Hseq Hne Hc Hv) as Hc1.
    rewrite Nat.add_assoc.
    apply (IH (S i) p1 p2 vs _ ltac:(congruence) ltac:(by rewrite Hctx) Hne Hc1 Hvs).
Qed.

Lemma runStep_unfold step p :
  runStep AssignableTo step p
  = match executeStep AssignableTo step (atStepStart step p) with
    | (p', Err e) =>
        (set_logger (logger p' ++ [(ErrorLevel, StepFailed (Name step) e)]) p', Err e)
    | r => r
    end.
Proof. done. Qed.

(** C1.  Under [UseLatest], take a step of the loop of [Execute], entered
    with any pipeline [p] (whatever its pick counters are), a type [T]
    with a sequence [seq] of [k ≥ 1] stored values, and a parameter of
    type [T] that goes to default resolution, reached after the
    parameters [pre] before it have been resolved.  It is resolved to
    the value at position [min j (k-1)] of [seq], where [j] is the number
    of parameters of type [T] among [pre] that went to default
    resolution.  An iteration of the loop calls [executeStep] on
    [atStepStart step p], whose map of pick counters is fresh, so what
    the iteration does is the same whichever counters the pipeline had on
    entry. *)
Theorem useLatest_jth_pick p step hasStepCfg bindings pre args p1 T seq :
  MissingArgPolicy (config p) = MissingArgPolicyUseLatest →
  values (context p) !! T = Some seq → seq ≠ [] →
  resolveArgs AssignableTo step hasStepCfg bindings 0 pre (atStepStart step p)
    = (p1, Ok args) →
  usesDefault hasStepCfg bindings (length pre) = true →
  (∃ v p2,
      seq !! Z.to_nat (Z.min (Z.of_nat (countDefault T hasStepCfg bindings 0 pre))
                             (len seq - 1)) = Some v
      ∧ resolveParam AssignableTo step hasStepCfg bindings (length pre) T p1
        = (p2, Ok v))
  ∧ pickCounters (atStepStart step p) = ∅
  ∧ runStep AssignableTo step p
    = match executeStep AssignableTo step (atStepStart step p) with
      | (p', Err e) =>
          (set_logger (logger p' ++ [(ErrorLevel, StepFailed (Name step) e)]) p', Err e)
      | r => r
      end
  ∧ ∀ c, runStep AssignableTo step (set_pickCounters c p)
         = runStep AssignableTo step p.
Proof.
  intros Hpol Hseq Hne Hpre Hd. split; [|split; [done|split; [done|]]].
  - pose proof (resolveArgs_onlyCounters _ _ _ _ _ _ _ _ Hpre) as Hframe.
    apply onlyCounters_fields in Hframe as (_ & Hctx & Hcfg & _).
    pose proof (resolveArgs_pick step hasStepCfg bindings T seq pre 0
                  (atStepStart step p) p1 args 0 Hpol Hseq Hne) as Hc.
    assert (1 ≤ len seq) as Hk.
    { pose proof (len_zero_iff seq). pose proof (len_nonneg seq).
      destruct (decide (len seq = 0)); [tauto|lia]. }
    simpl in Hctx, Hcfg. rewrite Nat.add_0_l in Hc.
    assert (default 0 (pickCounters (atStepStart step p) !! T)
            = Z.min (Z.of_nat 0) (len seq - 1)) as Hc0.
    { simpl. rewrite lookup_empty. simpl. lia. }
    specialize (Hc Hc0 Hpre).
    rewrite resolveParam_usesDefault by done.
    destruct (resolveArgDefault_UseLatest step T p1 seq) as (v & Hv & ->);
      [congruence|by rewrite Hctx|done|lia|].
    rewrite Hc in Hv.
    rewrite Z.min_l in Hv by lia.
    eauto.
  - intros c. by rewrite !runStep_unfold, atStepStart_set_pickCounters.
Qed.

(** ** One step *)

Lemma executeStep_unfold step fn cfg p :
  Callable step = Some fn →
  stepBindings step p = (p, Ok cfg) →
  executeStep AssignableTo step p
  = match resolveArgs AssignableTo step cfg.1 cfg.2 0 (ParamTypes fn) p with
    | (p1, Ok args) => (afterCall step fn args p1, Ok tt)
    | (p1, Err e) => (p1, Err e)
    | (p1, Panic k) => (p1, Panic k)
    end.
Proof.
  intros Hfn Hcfg. unfold executeStep. rewrite Hfn.
  unfold bind at 1. rewrite Hcfg.
  unfold bind at 1.
  by destruct (resolveArgs _ _ _ _ _ _ p) as [p1 [args|e|k]].
Qed.


(** What every call of [executeStep] leaves alone: the steps, the
    configuration, and the output-log entries of the other names. *)
Lemma executeStep_frame step p p' r :
  executeStep AssignableTo step p = (p', r) →
  steps p' = steps p ∧ config p' = config p
  ∧ ∀ n, n ≠ Name step → stepOutputs p' !! n = stepOutputs p !! n.
Proof.
  destruct (Callable step) as [fn|] eqn:Hfn;
    [|unfold executeStep; rewrite Hfn; by intros [= <- <-]].
  destruct (stepBindings step p) as [p0 r0] eqn:Hcfg.
  pose proof (stepBindings_state _ _ _ _ Hcfg) as ->.
  destruct r0 as [cfg|e0|k0].
  - rewrite (executeStep_unfold step fn cfg p Hfn Hcfg).
    destruct (resolveArgs _ _ _ _ _ _ p) as [p1 r1] eqn:Hargs.
    apply resolveArgs_onlyCounters, onlyCounters_fields in Hargs
      as (Hst & _ & Hcf & _ & Hout).
    destruct r1 as [args|e1|k1]; intros [= <- <-]; simpl;
      rewrite ?Hst, ?Hcf, ?Hout; repeat split; try done.
    intros n Hn. by rewrite lookup_insert_ne.
  - unfold executeStep. rewrite Hfn. unfold bind at 1. rewrite Hcfg.
    by intros [= <- <-].
  - unfold executeStep. rewrite Hfn. unfold bind at 1. rewrite Hcfg.
    by intros [= <- <-].
Qed.


Lemma runStep_frame step p p' r :
  runStep AssignableTo step p = (p', r) →
  steps p' = steps p ∧ config p' = config p
  ∧ ∀ n, n ≠ Name step → stepOutputs p' !! n = stepOutputs p !! n.
Proof.
  rewrite runStep_unfold.
  destruct (executeStep _ _ _) as [p1 r1] eqn:Hex.
  apply executeStep_frame in Hex as (Hst & Hcf & Hout). simpl in *.
  destruct r1 as [[]|e1|k1]; intros [= <- <-]; simpl; done.
Qed.

(** ** The loop of [Execute] *)

Lemma runSteps_app pre rest p :
  runSteps AssignableTo (pre ++ rest) p
  = match runSteps AssignableTo pre p with
    | (p1, Ok _) => runSteps AssignableTo rest p1
    | r => r
    end.
Proof.
  revert p. induction pre as [|s pre IH]; intros p; simpl; [done|].
  unfold bind.
  destruct (runStep _ s p) as [p1 [[]|e|k]]; [apply IH|done|done].
Qed.

Lemma runSteps_frame ss :
  ∀ p p' r,
    runSteps AssignableTo ss p = (p', r) →
    steps p' = steps p ∧ config p' = config p
    ∧ ∀ n, n ∉ Name <$> ss → stepOutputs p' !! n = stepOutputs p !! n.
Proof.
  induction ss as [|s ss IH]; intros p p' r; simpl.
  - by intros [= <- <-].
  - unfold bind.
    destruct (runStep _ s p) as [p1 r1] eqn:H1.
    apply runStep_frame in H1 as (Hst & Hcf & Hout).
    assert (∀ n, n ∉ Name s :: (Name <$> ss) →
                 stepOutputs p1 !! n = stepOutputs p !! n) as Hout'.
    { intros n Hn. apply Hout. intros ->. apply Hn. left. }
    destruct r1 as [[]|e1|k1]; try (by intros [= <- <-]).
    intros Hrest. apply IH in Hrest as (Hst2 & Hcf2 & Hout2).
    repeat split; [congruence|congruence|].
    intros n Hn. rewrite Hout2, Hout'; [done|done|].
    intros Hin. apply Hn. by right.
Qed.

(** The first failing step ends the loop. *)
Lemma runSteps_first_failure pre step post p p1 p2 e :
  runSteps AssignableTo pre p = (p1, Ok tt) →
  runStep AssignableTo step p1 = (p2, Err e) →
  runSteps AssignableTo (pre ++ step :: post) p = (p2, Err e).
Proof.
  intros Hpre Hstep. rewrite runSteps_app, Hpre. simpl.
  unfold bind. by rewrite Hstep.
Qed.

(** ** The entries of the filtered log *)

(** C9, as the code has it.  With a non-empty filter, a name that has no
    entry in the step output log has no entry in the filtered result,
    and a name of the filter that has an entry in the log keeps it, also
    when the entry is the empty sequence; a step that has run has an
    entry, whatever the number of values it returned. *)
Theorem filterOutputs_entries p :
  OutputFilter (config p) ≠ [] →
  (∀ n, stepOutputs p !! n = None → filterOutputs p !! n = None)
  ∧ (∀ n outputs,
       n ∈ OutputFilter (config p) → stepOutputs p !! n = Some outputs →
       filterOutputs p !! n = Some outputs)
  ∧ (∀ step p0, executeStep AssignableTo step p0 = (p, Ok tt) →
                is_Some (stepOutputs p !! Name step)).
Proof.
  intros HF. split; [|split].
  - intros n Hn. rewrite filterOutputs_lookup, Hn by done. by destruct (decide _).
  - intros n outputs Hin Hn. by rewrite filterOutputs_lookup, decide_True.
  - intros step p0 Hex.
    destruct (Callable step) as [fn|] eqn:Hfn;
      [|unfold executeStep in Hex; by rewrite Hfn in Hex].
    destruct (stepBindings step p0) as [p0' r0] eqn:Hcfg.
    pose proof (stepBindings_state _ _ _ _ Hcfg) as ->.
    destruct r0 as [cfg|e0|k0].
    + rewrite (executeStep_unfold step fn cfg p0 Hfn Hcfg) in Hex.
      destruct (resolveArgs _ _ _ _ _ _ p0) as [p1 [args|e1|k1]]; try done.
      injection Hex as <-. simpl. rewrite lookup_insert_eq. eauto.
    + unfold executeStep in Hex. rewrite Hfn in Hex.
      unfold bind at 1 in Hex. by rewrite Hcfg in Hex.
    + unfold executeStep in Hex. rewrite Hfn in Hex.
      unfold bind at 1 in Hex. by rewrite Hcfg in Hex.
Qed.

(** ** Execute *)

Lemma Execute_unfold p p0 :
  reorderStepsIfNeeded p = (p0, Ok tt) →
  Execute AssignableTo p
  = match runSteps AssignableTo (steps p0) p0 with
    | (p', Err e) => (p', Returns (None, Some e))
    | (p', Panic k) => (p', Panics k)
    | (p', Ok _) =>
        (set_logger (logger p' ++ [(InfoLevel, ExecutionComplete)]) p',
         Returns (Some (filterOutputs p'), None))
    end.
Proof. intros Hre. unfold Execute, bind. by rewrite Hre. Qed.


(** ** The [Fail] policy *)

(** C7.  Under the [Fail] policy, when the run reaches a parameter that
    goes to default resolution (the earlier steps have run, the earlier
    parameters of the step are resolved), resolving it fails with the
    missing-argument error, whatever the value store holds, and
    [Execute] returns that error and no result map. *)
Theorem fail_policy_aborts p p0 pre step post p1 fn cfg tpre T tpost args p2 :
  MissingArgPolicy (config p) = MissingArgPolicyFail →
  reorderStepsIfNeeded p = (p0, Ok tt) →
  steps p0 = pre ++ step :: post →
  runSteps AssignableTo pre p0 = (p1, Ok tt) →
  Callable step = Some fn →
  ParamTypes fn = tpre ++ T :: tpost →
  stepBindings step (atStepStart step p1) = (atStepStart step p1, Ok cfg) →
  resolveArgs AssignableTo step cfg.1 cfg.2 0 tpre (atStepStart step p1)
    = (p2, Ok args) →
  usesDefault cfg.1 cfg.2 (length tpre) = true →
  resolveParam AssignableTo step cfg.1 cfg.2 (length tpre) T p2
    = (p2, Err (MissingArgumentFail (Name step) T))
  ∧ errorKind (MissingArgumentFail (Name step) T) = MissingArgument
  ∧ (Execute AssignableTo p).2
    = Returns (None, Some (MissingArgumentFail (Name step) T)).
Proof.
  intros Hpol Hre Hsteps Hpre Hfn Hparams Hcfg Hargs Hd.
  pose proof (reorderStepsIfNeeded_fields _ _ _ Hre) as (_ & Hcfg0 & _).
  pose proof (runSteps_frame _ _ _ _ Hpre) as (_ & Hcfg1 & _).
  pose proof (resolveArgs_onlyCounters _ _ _ _ _ _ _ _ Hargs) as Hframe.
  apply onlyCounters_fields in Hframe as (_ & _ & Hcfg2 & _).
  simpl in Hcfg2.
  assert (resolveParam AssignableTo step cfg.1 cfg.2 (length tpre) T p2
          = (p2, Err (MissingArgumentFail (Name step) T))) as Hparam.
  { rewrite resolveParam_usesDefault by done.
    apply resolveArgDefault_Fail. congruence. }
  split; [done|]. split; [done|].
  assert (runStep AssignableTo step p1
          = (set_logger
               (logger p2 ++ [(ErrorLevel,
                               StepFailed (Name step)
                                 (MissingArgumentFail (Name step) T))]) p2,
             Err (MissingArgumentFail (Name step) T))) as Hfail.
  { rewrite runStep_unfold.
    rewrite (executeStep_unfold step fn cfg _ Hfn Hcfg), Hparams.
    rewrite (resolveArgs_reaches _ _ _ _ _ _ _ _ _ _ Hargs).
    simpl. by rewrite Hparam. }
  rewrite (Execute_unfold p p0 Hre), Hsteps.
  by rewrite (runSteps_first_failure _ _ _ _ _ _ _ Hpre Hfail).
Qed.

End Properties.

(** * The value store: growth and invariants *)

Section StoreInvariants.
Context {rtype : Type} `{Countable rtype} {data : Type}.

Implicit Types (ctx : ExecutionContext rtype data) (t : rtype).
Implicit Types (v val : Value rtype data) (results vals : list (Value rtype data)).
Implicit Types (inputs : list (iface rtype data)).

Lemma storeValue_valuesOf ctx val t :
  valuesOf (storeValue ctx val) t
  = valuesOf ctx t ++ (if decide (TypeOf val = t) then [val] else []).
Proof.
  unfold valuesOf, storeValue. simpl.
  destruct (decide (TypeOf val = t)) as [<-|Hne].
  - by rewrite lookup_insert_eq.
  - rewrite lookup_insert_ne by done. by rewrite app_nil_r.
Qed.

Lemma StoreResults_valuesOf results :
  ∀ ctx t,
    valuesOf (StoreResults ctx results) t
    = valuesOf ctx t ++ filter (λ v, TypeOf v = t) results.
Proof.
  unfold StoreResults.
  induction results as [|val results IH]; intros ctx t; simpl.
  - by rewrite app_nil_r.
  - rewrite IH, storeValue_valuesOf, <- app_assoc. f_equal.
    destruct (decide (TypeOf val = t)) as [Ht|Ht].
    + by rewrite filter_cons_True.
    + by rewrite filter_cons_False.
Qed.

Lemma StoreResults_initialValues results :
  ∀ ctx, initialValues (StoreResults ctx results) = initialValues ctx.
Proof.
  unfold StoreResults.
  induction results as [|val results IH]; intros ctx; simpl; [done|].
  by rewrite IH.
Qed.

(** X1.  [StoreResults] only appends: the sequence of every type [t]
    becomes the old sequence followed by the results of type [t], in the
    order of the results, and the initial inputs are left as they are. *)
Theorem StoreResults_appends ctx results t :
  valuesOf (StoreResults ctx results) t
  = valuesOf ctx t ++ filter (λ v, TypeOf v = t) results
  ∧ initialValues (StoreResults ctx results) = initialValues ctx.
Proof.
  split; [apply StoreResults_valuesOf|apply StoreResults_initialValues].
Qed.

Lemma addInput_Some ctx t d :
  ∃ ctx', addInput ctx (Some (t, d)) = Ok ctx'
          ∧ values ctx' = values (storeValue ctx (Concrete t d))
          ∧ initialValues ctx' = initialValues ctx ++ [Concrete t d].
Proof. eexists. split; [unfold addInput; simpl; reflexivity|done]. Qed.

Lemma AddInputs_cons ctx input inputs :
  AddInputs ctx (input :: inputs)
  = match addInput ctx input with
    | Ok ctx' => AddInputs ctx' inputs
    | Err e => (ctx, Err e)
    | Panic k => (ctx, Panic k)
    end.
Proof. done. Qed.

Lemma valuesOf_ext ctx1 ctx2 t :
  values ctx1 = values ctx2 → valuesOf ctx1 t = valuesOf ctx2 t.
Proof. unfold valuesOf. by intros ->. Qed.

Lemma AddInputs_valid inputs :
  Forall is_Some inputs →
  ∀ ctx, ∃ ctx',
    AddInputs ctx inputs = (ctx', Ok tt)
    ∧ initialValues ctx' = initialValues ctx ++ omap ValueOf inputs
    ∧ ∀ t, valuesOf ctx' t
           = valuesOf ctx t ++ filter (λ v, TypeOf v = t) (omap ValueOf inputs).
Proof.
  induction 1 as [|input inputs [[t d] ->] _ IH]; intros ctx.
  - exists ctx. simpl. split; [done|]. split; [by rewrite app_nil_r|].
    intros t. by rewrite app_nil_r.
  - destruct (addInput_Some ctx t d) as (ctx1 & Hadd & Hvals & Hinit).
    destruct (IH ctx1) as (ctx' & Hrest & Hinit' & Hvals').
    exists ctx'. rewrite AddInputs_cons, Hadd. split; [done|].
    change (omap ValueOf (Some (t, d) :: inputs))
      with (Concrete t d :: omap ValueOf inputs).
    split.
    + by rewrite Hinit', Hinit, <- app_assoc.
    + intros t'. rewrite Hvals', (valuesOf_ext _ _ _ Hvals), storeValue_valuesOf.
      rewrite <- app_assoc. f_equal. simpl TypeOf.
      destruct (decide (t = t')) as [Ht|Ht].
      * by rewrite filter_cons_True.
      * by rewrite filter_cons_False.
Qed.

(** X2.  When no input is nil, [AddInputs] succeeds; the values of the
    inputs are appended, in call order, to the initial inputs, and each
    to the sequence of its own type. *)
Theorem AddInputs_appends ctx inputs :
  Forall is_Some inputs →
  ∃ ctx',
    AddInputs ctx inputs = (ctx', Ok tt)
    ∧ initialValues ctx' = initialValues ctx ++ omap ValueOf inputs
    ∧ length (omap ValueOf inputs) = length inputs
    ∧ ∀ t, valuesOf ctx' t
           = valuesOf ctx t ++ filter (λ v, TypeOf v = t) (omap ValueOf inputs).
Proof.
  intros Hvalid.
  destruct (AddInputs_valid inputs Hvalid ctx) as (ctx' & Hadd & Hinit & Hvals).
  exists ctx'. repeat split; try done.
  clear -Hvalid. induction Hvalid as [|input inputs [[t d] ->] _ IH]; [done|].
  simpl. by rewrite <- IH.
Qed.

(** X3.  A nil input makes [AddInputs] panic, and the inputs before the
    first nil one stay stored: the receiver is the one that [AddInputs]
    of those inputs alone leaves. *)
Theorem AddInputs_nil_input ctx pre post :
  Forall is_Some pre →
  AddInputs ctx (pre ++ None :: post)
  = ((AddInputs ctx pre).1, Panic TypeOnZeroValue)
  ∧ (AddInputs ctx pre).2 = Ok tt.
Proof.
  intros Hpre. revert ctx.
  induction Hpre as [|input pre [[t d] ->] _ IH]; intros ctx; [done|].
  destruct (addInput_Some ctx t d) as (ctx1 & Hadd & _).
  rewrite <- app_comm_cons, !AddInputs_cons, Hadd. apply IH.
Qed.

Lemma wellKeyed_storeValue ctx val :
  wellKeyed ctx → wellKeyed (storeValue ctx val).
Proof.
  intros Hwk t v. rewrite storeValue_valuesOf, elem_of_app.
  intros [Hv|Hv]; [by apply Hwk|].
  destruct (decide (TypeOf val = t)) as [Ht|Ht].
  - apply list_elem_of_singleton in Hv. by subst.
  - by apply elem_of_nil in Hv.
Qed.

Lemma wellKeyed_StoreResults results :
  ∀ ctx, wellKeyed ctx → wellKeyed (StoreResults ctx results).
Proof.
  unfold StoreResults.
  induction results as [|val results IH]; intros ctx Hwk; simpl; [done|].
  by apply IH, wellKeyed_storeValue.
Qed.

Lemma wellKeyed_new : wellKeyed (NewExecutionContext (rtype := rtype) (data := data)).
Proof.
  intros t v. unfold valuesOf. simpl. rewrite lookup_empty. simpl.
  by intros ?%elem_of_nil.
Qed.

Lemma wellKeyed_AddInputs inputs :
  ∀ ctx, wellKeyed ctx → wellKeyed (AddInputs ctx inputs).1.
Proof.
  induction inputs as [|[[t d]|] inputs IH]; intros ctx Hwk; simpl; [done| |done].
  apply IH. intros t' v.
  assert (valuesOf
            {| values := <[t := default [] (values ctx !! t) ++ [Concrete t d]]>
                           (values ctx);
               initialValues := initialValues ctx ++ [Concrete t d] |} t'
          = valuesOf (storeValue ctx (Concrete t d)) t') as -> by done.
  by apply wellKeyed_storeValue.
Qed.

(** X4.  The store keeps every value under the key of its own type: this
    holds of the empty context and is kept by [StoreResults] and by
    [AddInputs] (whether it succeeds or panics on a nil input). *)
Theorem wellKeyed_invariant :
  wellKeyed (NewExecutionContext (rtype := rtype) (data := data))
  ∧ (∀ ctx results, wellKeyed ctx → wellKeyed (StoreResults ctx results))
  ∧ (∀ ctx inputs, wellKeyed ctx → wellKeyed (AddInputs ctx inputs).1).
Proof.
  split; [apply wellKeyed_new|]. split.
  - intros ctx results. apply wellKeyed_StoreResults.
  - intros ctx inputs. apply wellKeyed_AddInputs.
Qed.

Lemma valuesOf_lookup ctx t :
  valuesOf ctx t ≠ [] → values ctx !! t = Some (valuesOf ctx t).
Proof. unfold valuesOf. by destruct (values ctx !! t). Qed.

Lemma getValueByIndex_in_range ctx t (i : Z) :
  0 ≤ i < len (valuesOf ctx t) →
  getValueByIndex ctx t i
  = match valuesOf ctx t !! Z.to_nat i with
    | Some v => Ok v
    | None => Panic IndexPastEnd
    end
  ∧ is_Some (valuesOf ctx t !! Z.to_nat i).
Proof.
  intros Hi.
  assert (valuesOf ctx t ≠ []) as Hne.
  { intros Heq. rewrite Heq in Hi. unfold len in Hi. simpl in Hi. lia. }
  unfold getValueByIndex. rewrite (valuesOf_lookup ctx t Hne).
  destruct (Z.eqb_spec (len (valuesOf ctx t)) 0); [lia|].
  destruct (Z.ltb_spec i 0); [lia|].
  destruct (Z.leb_spec (len (valuesOf ctx t)) i); [lia|].
  unfold sliceAt.
  destruct (Z.ltb_spec i 0); [lia|].
  destruct (Z.leb_spec (len (valuesOf ctx t)) i); [lia|]. simpl.
  split; [done|]. apply lookup_lt_is_Some. unfold len in Hi. lia.
Qed.

(** X5.  Positions already in use stay valid: a lookup at an index inside
    the sequence of its type gives the same value after any
    [StoreResults]. *)
Theorem getValueByIndex_stable ctx t (i : Z) v results :
  0 ≤ i < len (valuesOf ctx t) →
  getValueByIndex ctx t i = Ok v →
  getValueByIndex (StoreResults ctx results) t i = Ok v.
Proof.
  intros Hi Hget.
  destruct (getValueByIndex_in_range ctx t i Hi) as [Hold [v0 Hv0]].
  rewrite Hold, Hv0 in Hget. injection Hget as ->.
  assert (0 ≤ i < len (valuesOf (StoreResults ctx results) t)) as Hi'.
  { rewrite StoreResults_valuesOf. unfold len in *. rewrite length_app. lia. }
  destruct (getValueByIndex_in_range _ t i Hi') as [-> _].
  rewrite StoreResults_valuesOf, lookup_app_l, Hv0; [done|].
  unfold len in Hi. lia.
Qed.

End StoreInvariants.

(** * Runs: what they keep and what they cannot do *)

Section RunInvariants.
Context {rtype : Type} `{Countable rtype} {data : Type}.
Variable AssignableTo : rtype → rtype → bool.

Implicit Types (ctx : ExecutionContext rtype data) (p : Pipeline rtype data).
Implicit Types (step : Step rtype data) (t T paramType : rtype).
Implicit Types (v val : Value rtype data) (args : list (Value rtype data)).
Implicit Types (ss : list (Step rtype data)).

(** ** The values that resolution returns *)

Lemma sliceAt_elem {A : Type} (s : list A) (i : Z) (x : A) :
  sliceAt s i = Ok (E := PipelineError rtype) x → x ∈ s.
Proof.
  unfold sliceAt. destruct (_ || _); [done|].
  destruct (s !! Z.to_nat i) as [y|] eqn:Hy; [|done].
  intros [= <-]. by eapply list_elem_of_lookup_2.
Qed.

Lemma getValueByIndex_elem ctx t (i : Z) v :
  getValueByIndex ctx t i = Ok v → v ∈ valuesOf ctx t.
Proof.
  unfold getValueByIndex, valuesOf.
  destruct (values ctx !! t) as [vals|]; [|done]. simpl.
  destruct (_ =? 0); [done|]. destruct (i <? 0); [done|].
  apply sliceAt_elem.
Qed.


Lemma resolveArgDefault_elem step T p p' v :
  resolveArgDefault step T p = (p', Ok v) → v ∈ valuesOf (context p) T.
Proof.
  unfold resolveArgDefault.
  destruct (_ =? MissingArgPolicyUseLatest).
  - destruct (getValueByIndex _ _ _) as [v0|e|k] eqn:Hget; try done.
    intros [= _ <-]. by eapply getValueByIndex_elem.
  - by destruct (_ =? MissingArgPolicyFail).
Qed.


Lemma resolveArgFromInitial_result step T (i : Z) p p' r :
  resolveArgFromInitial AssignableTo step T i p = (p', r) →
  match r with
  | Ok v => AssignableTo (TypeOf v) T = true
  | Err _ => True
  | Panic _ => False
  end.
Proof.
  unfold resolveArgFromInitial, lift, InitialValues. intros [= _ <-].
  pose proof (len_nonneg (initialValues (context p))) as Hnn.
  destruct (Z.ltb_spec i 0); simpl; [done|].
  destruct (Z.leb_spec (len (initialValues (context p))) i); [done|].
  destruct (sliceAt_in_range (rtype := rtype) (initialValues (context p)) i)
    as (x & _ & ->); [lia|].
  by destruct (AssignableTo (TypeOf x) T) eqn:Hx.
Qed.

Lemma resolveArgFromFunctionOutput_Ok step T (n : string) (i : Z) p p' v :
  resolveArgFromFunctionOutput AssignableTo step T n i p = (p', Ok v) →
  AssignableTo (TypeOf v) T = true.
Proof.
  unfold resolveArgFromFunctionOutput, lift. intros [= _ Hr]. revert Hr.
  destruct (stepOutputs p !! n) as [outputs|]; [|done].
  destruct (_ || _); [done|].
  destruct (sliceAt outputs i) as [out|e|k]; try done.
  destruct (ValueOf out) as [val|]; [|done].
  destruct (AssignableTo (TypeOf val) T) eqn:Hval; [|done].
  simpl. by intros [= <-].
Qed.

Lemma resolveParam_cases step hasStepCfg bindings (i : nat) T :
  resolveParam AssignableTo step hasStepCfg bindings i T = resolveArgDefault step T
  ∨ (∃ binding, hasStepCfg = true ∧ bindings !! i = Some (Some binding)
       ∧ ArgBinding.Source binding = ArgSourceInitial
       ∧ resolveParam AssignableTo step hasStepCfg bindings i T
         = resolveArgFromInitial AssignableTo step T (ArgBinding.Index binding))
  ∨ (∃ binding, hasStepCfg = true ∧ bindings !! i = Some (Some binding)
       ∧ ArgBinding.Source binding = ArgSourceFunctionOutput
       ∧ resolveParam AssignableTo step hasStepCfg bindings i T
         = resolveArgFromFunctionOutput AssignableTo step T
             (ArgBinding.Name binding) (ArgBinding.Index binding)).
Proof.
  unfold resolveParam, resolveArg.
  destruct hasStepCfg; [|by left].
  destruct (bindings !! i) as [[binding|]|]; [|by left|by left].
  destruct (Z.eqb_spec (ArgBinding.Source binding) ArgSourceInitial) as [Hi|Hi].
  { right. left. eauto 10. }
  destruct (Z.eqb_spec (ArgBinding.Source binding) ArgSourceFunctionOutput) as [Ho|Ho].
  { right. right. eauto 10. }
  left. by destruct (_ =? ArgSourceDefault).
Qed.

Lemma resolveParam_assignable step hasStepCfg bindings (i : nat) T p p' v :
  wellKeyed (context p) → (∀ t, AssignableTo t t = true) →
  resolveParam AssignableTo step hasStepCfg bindings i T p = (p', Ok v) →
  AssignableTo (TypeOf v) T = true.
Proof.
  intros Hwk Hrefl.
  destruct (resolveParam_cases step hasStepCfg bindings i T)
    as [->|[(b & _ & _ & _ & ->)|(b & _ & _ & _ & ->)]].
  - intros Hv%resolveArgDefault_elem. by rewrite (Hwk _ _ Hv).
  - intros Hr. by apply resolveArgFromInitial_result in Hr.
  - apply resolveArgFromFunctionOutput_Ok.
Qed.

(** X6.  Over a store that keeps the values under their types, and with
    an assignability that holds between a type and itself, every argument
    that the parameter loop hands to the callable has a type assignable to
    its parameter, one argument per parameter. *)
Theorem resolveArgs_assignable step hasStepCfg bindings params :
  (∀ t, AssignableTo t t = true) →
  ∀ (i : nat) p p' args,
    wellKeyed (context p) →
    resolveArgs AssignableTo step hasStepCfg bindings i params p = (p', Ok args) →
    Forall2 (λ v T, AssignableTo (TypeOf v) T = true) args params.
Proof.
  intros Hrefl.
  induction params as [|T params IH]; intros i p p' args Hwk; simpl.
  - intros [= _ <-]. constructor.
  - intros Hres. apply bind_Ok in Hres as (p1 & v & Hv & Hres).
    apply bind_Ok in Hres as (p2 & vs & Hvs & Hret).
    injection Hret as _ <-.
    pose proof (resolveParam_onlyCounters _ _ _ _ _ _ _ _ _ Hv) as Hframe.
    apply onlyCounters_fields in Hframe as (_ & Hctx & _).
    constructor.
    + by eapply resolveParam_assignable.
    + eapply IH; [|exact Hvs]. by rewrite Hctx.
Qed.

(** X7.  Under [UseLatest], with no negative pick counter, default
    resolution fails exactly when the store has no value of the type: then
    the error is the not-found error wrapped with the step and the type,
    and the pipeline is unchanged; otherwise it returns one of the stored
    values of that type and writes the pick counters only. *)
Theorem resolveArgDefault_UseLatest_outcome step T p :
  MissingArgPolicy (config p) = MissingArgPolicyUseLatest →
  countersNonneg p →
  (valuesOf (context p) T = [] →
     resolveArgDefault step T p
     = (p, Err (CannotFindValue (Name step) T (NoValuesFound T))))
  ∧ (valuesOf (context p) T ≠ [] →
     ∃ v p', resolveArgDefault step T p = (p', Ok v)
             ∧ v ∈ valuesOf (context p) T ∧ onlyCounters p p').
Proof.
  intros Hpol Hnn. split.
  - intros Hempty. unfold resolveArgDefault. rewrite Hpol. simpl.
    unfold getValueByIndex. unfold valuesOf in Hempty.
    destruct (values (context p) !! T) as [vals|]; [|done].
    simpl in Hempty. by subst vals.
  - intros Hne.
    assert (values (context p) !! T = Some (valuesOf (context p) T)) as Hseq.
    { unfold valuesOf in *. by destruct (values (context p) !! T). }
    destruct (resolveArgDefault_UseLatest step T p _ Hpol Hseq Hne (Hnn T))
      as (v & _ & Hres).
    eexists v, _. split; [exact Hres|]. split.
    + by eapply resolveArgDefault_elem.
    + by eapply resolveArgDefault_onlyCounters.
Qed.

(** ** What a run keeps *)

Lemma grows_refl p : grows p p.
Proof.
  unfold grows. split_and!; try done.
  intros n outputs Hn. exists []. by rewrite app_nil_r.
Qed.

Lemma grows_trans p1 p2 p3 : grows p1 p2 → grows p2 p3 → grows p1 p3.
Proof.
  intros (Hc1 & Hi1 & Hv1 & Ho1 & Hl1) (Hc2 & Hi2 & Hv2 & Ho2 & Hl2).
  unfold grows. split_and!.
  - congruence.
  - congruence.
  - intros t. etrans; [apply Hv1|apply Hv2].
  - intros n outputs Hn.
    destruct (Ho1 _ _ Hn) as (more1 & Hn1).
    destruct (Ho2 _ _ Hn1) as (more2 & Hn2).
    exists (more1 ++ more2). by rewrite app_assoc.
  - etrans; [apply Hl1|apply Hl2].
Qed.

Lemma grows_onlyCounters p p' : onlyCounters p p' → grows p p'.
Proof.
  intros (_ & Hctx & Hcfg & Hlog & Hout)%onlyCounters_fields.
  unfold grows. split_and!; try congruence.
  - intros t. by rewrite Hctx.
  - intros n outputs Hn. exists []. by rewrite app_nil_r, Hout.
  - by rewrite Hlog.
Qed.

Lemma grows_log p entries : grows p (set_logger (logger p ++ entries) p).
Proof.
  unfold grows. split_and!; try done.
  - intros n outputs Hn. exists []. by rewrite app_nil_r.
  - by apply prefix_app_r.
Qed.

Lemma grows_afterCall step fn args p : grows p (afterCall step fn args p).
Proof.
  unfold grows. split_and!; simpl.
  - done.
  - apply StoreResults_initialValues.
  - intros t. rewrite StoreResults_valuesOf. by apply prefix_app_r.
  - intros n outputs Hn. destruct (decide (Name step = n)) as [<-|Hne].
    + rewrite lookup_insert_eq, Hn. simpl. eauto.
    + rewrite lookup_insert_ne by done. exists []. by rewrite app_nil_r.
  - by apply prefix_app_r.
Qed.

Lemma executeStep_outcomes step p p' r :
  executeStep AssignableTo step p = (p', r) →
  (r ≠ Ok tt ∧ onlyCounters p p')
  ∨ (r = Ok tt
     ∧ ∃ fn cfg args p1,
         Callable step = Some fn
         ∧ stepBindings step p = (p, Ok cfg)
         ∧ resolveArgs AssignableTo step cfg.1 cfg.2 0 (ParamTypes fn) p = (p1, Ok args)
         ∧ p' = afterCall step fn args p1).
Proof.
  destruct (Callable step) as [fn|] eqn:Hfn.
  2:{ unfold executeStep. rewrite Hfn. intros [= <- <-].
      left. split; [done|apply onlyCounters_refl]. }
  destruct (stepBindings step p) as [p0 r0] eqn:Hcfg.
  pose proof (stepBindings_state _ _ _ _ Hcfg) as ->.
  destruct r0 as [cfg|e0|k0].
  - rewrite (executeStep_unfold _ step fn cfg p Hfn Hcfg).
    destruct (resolveArgs _ _ _ _ _ _ p) as [p1 r1] eqn:Hargs.
    pose proof (resolveArgs_onlyCounters _ _ _ _ _ _ _ _ _ Hargs) as Hframe.
    destruct r1 as [args|e1|k1]; intros [= <- <-].
    + right. split; [done|]. eauto 10.
    + by left.
    + by left.
  - unfold executeStep. rewrite Hfn. unfold bind at 1. rewrite Hcfg.
    intros [= <- <-]. left. split; [done|apply onlyCounters_refl].
  - unfold executeStep. rewrite Hfn. unfold bind at 1. rewrite Hcfg.
    intros [= <- <-]. left. split; [done|apply onlyCounters_refl].
Qed.

Lemma executeStep_grows step p p' r :
  executeStep AssignableTo step p = (p', r) → grows p p'.
Proof.
  intros [[_ Hframe]|(_ & fn & cfg & args & p1 & _ & _ & Hargs & ->)]%executeStep_outcomes.
  - by apply grows_onlyCounters.
  - eapply grows_trans; [|apply grows_afterCall].
    apply grows_onlyCounters. by eapply resolveArgs_onlyCounters.
Qed.

Lemma grows_atStepStart step p : grows p (atStepStart step p).
Proof.
  eapply grows_trans; [apply grows_log|].
  apply grows_onlyCounters, onlyCounters_set.
Qed.

Lemma runStep_grows step p p' r :
  runStep AssignableTo step p = (p', r) → grows p p'.
Proof.
  rewrite runStep_unfold.
  destruct (executeStep _ _ _) as [p1 r1] eqn:Hex.
  apply executeStep_grows in Hex.
  pose proof (grows_trans _ _ _ (grows_atStepStart step p) Hex) as Hg.
  destruct r1 as [[]|e1|k1]; intros [= <- <-]; try done.
  eapply grows_trans; [exact Hg|apply grows_log].
Qed.

Lemma runSteps_grows ss :
  ∀ p p' r, runSteps AssignableTo ss p = (p', r) → grows p p'.
Proof.
  induction ss as [|s ss IH]; intros p p' r; simpl.
  - intros [= <- <-]. apply grows_refl.
  - unfold bind. destruct (runStep _ s p) as [p1 r1] eqn:H1.
    apply runStep_grows in H1.
    destruct r1 as [[]|e1|k1]; try (by intros [= <- <-]).
    intros Hrest. eapply grows_trans; [exact H1|by eapply IH].
Qed.

Lemma reorderStepsIfNeeded_grows p p0 r :
  reorderStepsIfNeeded p = (p0, r) → grows p p0.
Proof.
  destruct (decide (StepOrder (config p) = [])) as [HO|HO].
  - unfold reorderStepsIfNeeded. rewrite HO. simpl.
    intros [= <- <-]. apply grows_refl.
  - rewrite reorderStepsIfNeeded_unfold by done. intros [= <- _].
    unfold grows. split_and!; simpl; try done.
    + intros n outputs Hn. exists []. by rewrite app_nil_r.
    + by apply prefix_app_r.
Qed.

(** X8.  Whatever its outcome (a result, an error or a panic), [Execute]
    leaves the configuration and the initial inputs as they were, and the
    value store, the step output log and the logger only grow: every
    sequence of the store, every entry of the log and the list of logger
    calls is extended at its end, never shortened or rewritten. *)
Theorem Execute_grows p : grows p (Execute AssignableTo p).1.
Proof.
  destruct (reorderStepsIfNeeded_frame p) as (p0 & Hre & _).
  pose proof (reorderStepsIfNeeded_grows _ _ _ Hre) as Hg0.
  rewrite (Execute_unfold _ p p0 Hre).
  destruct (runSteps _ _ p0) as [p1 r1] eqn:Hrun.
  apply runSteps_grows in Hrun.
  pose proof (grows_trans _ _ _ Hg0 Hrun) as Hg.
  destruct r1 as [[]|e1|k1]; simpl; try done.
  eapply grows_trans; [exact Hg|apply grows_log].
Qed.

Lemma executeStep_wellKeyed step p p' r :
  executeStep AssignableTo step p = (p', r) →
  wellKeyed (context p) → wellKeyed (context p').
Proof.
  intros [[_ Hframe]|(_ & fn & cfg & args & p1 & _ & _ & Hargs & ->)]%executeStep_outcomes Hwk.
  - apply onlyCounters_fields in Hframe as (_ & -> & _). done.
  - apply resolveArgs_onlyCounters, onlyCounters_fields in Hargs as (_ & Hctx & _).
    simpl. apply wellKeyed_StoreResults. by rewrite Hctx.
Qed.

Lemma runSteps_wellKeyed ss :
  ∀ p p' r,
    runSteps AssignableTo ss p = (p', r) →
    wellKeyed (context p) → wellKeyed (context p').
Proof.
  induction ss as [|s ss IH]; intros p p' r; simpl.
  - by intros [= <- <-].
  - unfold bind. rewrite runStep_unfold.
    destruct (executeStep _ s _) as [p1 r1] eqn:Hex.
    pose proof (executeStep_wellKeyed _ _ _ _ Hex) as Hkeep. simpl in Hkeep.
    clear Hex. rename Hkeep into Hex.
    destruct r1 as [[]|e1|k1].
    + intros Hrest Hwk. eapply IH; [exact Hrest|by apply Hex].
    + intros [= <- <-] Hwk. simpl. by apply Hex.
    + intros [= <- <-] Hwk. by apply Hex.
Qed.

(** X9.  A run keeps the store well keyed: when every stored value sits
    under its own type before [Execute], the same holds after it, whatever
    the outcome. *)
Theorem Execute_wellKeyed p :
  wellKeyed (context p) → wellKeyed (context (Execute AssignableTo p).1).
Proof.
  intros Hwk.
  destruct (reorderStepsIfNeeded_frame p) as (p0 & Hre & Hctx & _).
  rewrite (Execute_unfold _ p p0 Hre).
  destruct (runSteps _ _ p0) as [p1 r1] eqn:Hrun.
  apply runSteps_wellKeyed in Hrun; [|by rewrite Hctx].
  by destruct r1 as [[]|e1|k1].
Qed.

(** ** The result of a successful run *)

Lemma executeStep_entry step p p' :
  executeStep AssignableTo step p = (p', Ok tt) →
  is_Some (stepOutputs p' !! Name step).
Proof.
  intros [[Hr _]|(_ & fn & cfg & args & p1 & _ & _ & _ & ->)]%executeStep_outcomes;
    [done|].
  simpl. rewrite lookup_insert_eq. eauto.
Qed.

Lemma runSteps_entries ss :
  ∀ p p', runSteps AssignableTo ss p = (p', Ok tt) →
          ∀ s, s ∈ ss → is_Some (stepOutputs p' !! Name s).
Proof.
  induction ss as [|s0 ss IH]; intros p p'; simpl.
  - intros _ s Hs. by apply elem_of_nil in Hs.
  - unfold bind. destruct (runStep _ s0 p) as [p1 r1] eqn:H1.
    destruct r1 as [[]|e1|k1]; try done.
    intros Hrest s [->|Hs]%elem_of_cons; [|by eapply IH].
    rewrite runStep_unfold in H1.
    destruct (executeStep _ s0 _) as [p1' r1'] eqn:Hex.
    destruct r1' as [[]|e1|k1]; try done. injection H1 as ->.
    apply executeStep_entry in Hex as [outputs Hout].
    apply runSteps_grows in Hrest as (_ & _ & _ & Hlog & _).
    destruct (Hlog _ _ Hout) as (more & ->). eauto.
Qed.

(** X10.  When [Execute] returns a result map, every step of the executed
    sequence that the output filter lets through (any step when the
    filter is empty) has an entry in the map. *)
Theorem Execute_success_entries p p' m :
  Execute AssignableTo p = (p', Returns (Some m, None)) →
  ∀ s, s ∈ steps p' →
       OutputFilter (config p) = [] ∨ Name s ∈ OutputFilter (config p) →
       is_Some (m !! Name s).
Proof.
  destruct (reorderStepsIfNeeded_frame p) as (p0 & Hre & _ & Hcfg0 & _).
  rewrite (Execute_unfold _ p p0 Hre).
  destruct (runSteps _ _ p0) as [p1 r1] eqn:Hrun.
  destruct r1 as [[]|e1|k1]; try done.
  intros [= <- <-] s Hs Hfilter. simpl in Hs.
  pose proof (runSteps_frame _ _ _ _ _ Hrun) as (Hst & Hcfg1 & _).
  rewrite Hst in Hs.
  pose proof (runSteps_entries _ _ _ Hrun s Hs) as Hentry.
  destruct (decide (OutputFilter (config p1) = [])) as [HF|HF].
  - unfold filterOutputs. by rewrite HF.
  - rewrite filterOutputs_lookup by done.
    rewrite decide_True; [done|].
    rewrite Hcfg1, Hcfg0. destruct Hfilter as [Hnil|Hin]; [|done].
    by rewrite Hcfg1, Hcfg0 in HF.
Qed.

(** ** Panics *)








End RunInvariants.

(** * The orderer and the filter, once more *)

Section OrderAndFilter.
Context {rtype : Type} `{Countable rtype} {data : Type}.

Implicit Types (p : Pipeline rtype data) (ss : list (Step rtype data)).

Lemma filter_all {A : Type} (P : A → Prop) `{!∀ x, Decision (P x)} (l : list A) :
  Forall P l → filter P l = l.
Proof.
  induction 1 as [|x l Hx _ IH]; [done|].
  by rewrite filter_cons_True, IH.
Qed.

Lemma filter_none {A : Type} (P : A → Prop) `{!∀ x, Decision (P x)} (l : list A) :
  Forall (λ x, ¬ P x) l → filter P l = [].
Proof.
  induction 1 as [|x l Hx _ IH]; [done|].
  by rewrite filter_cons_False.
Qed.

(** The new sequence, for steps of distinct names. *)
Lemma reorderStepsIfNeeded_steps p :
  NoDup (Name <$> steps p) →
  ∃ p', reorderStepsIfNeeded p = (p', Ok tt)
        ∧ config p' = config p
        ∧ steps p' = omap (stepNamed (steps p)) (StepOrder (config p))
                     ++ filter (λ s, Name s ∉ StepOrder (config p)) (steps p).
Proof.
  intros Hnd. destruct (decide (StepOrder (config p) = [])) as [HO|HO].
  - exists p. unfold reorderStepsIfNeeded. rewrite HO. simpl.
    split; [done|]. split; [done|].
    rewrite filter_all; [done|]. apply Forall_forall. intros s _.
    apply not_elem_of_nil.
  - eexists. split; [by apply reorderStepsIfNeeded_unfold|]. simpl.
    split; [done|]. f_equal.
    + apply omap_ext_all. intros n. by apply buildStepMap_lookup.
    + apply filter_ext_elem. intros s Hs.
      rewrite usedAfter_lookup, lookup_empty. simpl.
      rewrite bool_decide_eq_false. split.
      * intros Hno Hin. apply Hno. split; [done|].
        apply buildStepMap_is_Some. by apply list_elem_of_fmap_2.
      * intros Hno [Hin _]. done.
Qed.

Lemma stepNamed_permutation ss ss' n :
  NoDup (Name <$> ss) → ss' ≡ₚ ss → stepNamed ss' n = stepNamed ss n.
Proof.
  intros Hnd Hperm.
  assert (NoDup (Name <$> ss')) as Hnd' by (by rewrite Hperm).
  destruct (stepNamed ss n) as [s|] eqn:Hs.
  - apply stepNamed_Some in Hs as [Hin <-].
    apply stepNamed_elem; [done|]. by rewrite Hperm.
  - destruct (stepNamed ss' n) as [s'|] eqn:Hs'; [|done].
    apply stepNamed_Some in Hs' as [Hin <-].
    rewrite Hperm in Hin.
    by rewrite (stepNamed_elem ss s' Hnd Hin) in Hs.
Qed.

(** X12.  Reordering is idempotent on the sequence: for steps of distinct
    names and a configured order without repeated names, reordering the
    reordered pipeline again yields the same sequence of steps. *)
Theorem reorderStepsIfNeeded_idempotent p :
  NoDup (Name <$> steps p) →
  NoDup (StepOrder (config p)) →
  steps (reorderStepsIfNeeded (reorderStepsIfNeeded p).1).1
  = steps (reorderStepsIfNeeded p).1.
Proof.
  intros Hnd HO.
  destruct (reorderStepsIfNeeded_steps p Hnd) as (p1 & -> & Hcfg & Hsteps).
  simpl.
  assert (steps p1 ≡ₚ steps p) as Hperm.
  { rewrite Hsteps, known_steps_permutation by done. apply filter_app_complement. }
  assert (NoDup (Name <$> steps p1)) as Hnd1 by (by rewrite Hperm).
  destruct (reorderStepsIfNeeded_steps p1 Hnd1) as (p2 & -> & _ & Hsteps2).
  simpl. rewrite Hsteps2, Hcfg.
  rewrite (omap_ext_all _ (stepNamed (steps p)))
    by (intros n; by apply stepNamed_permutation).
  rewrite Hsteps, filter_app. f_equal.
  rewrite filter_none, filter_all; [done| |].
  - apply Forall_forall. intros s. by rewrite list_elem_of_filter; intros [? _].
  - apply Forall_forall. intros s. rewrite list_elem_of_omap.
    intros (n & Hn & Hs). apply stepNamed_Some in Hs as [_ <-]. tauto.
Qed.

(** X13.  The filtered log never holds anything that the log does not
    hold: it is a sub-map of the step output log, and with a non-empty
    filter every name it has is a name of the filter. *)
Theorem filterOutputs_submap p :
  filterOutputs p ⊆ stepOutputs p
  ∧ ∀ n, is_Some (filterOutputs p !! n) →
         OutputFilter (config p) = [] ∨ n ∈ OutputFilter (config p).
Proof.
  destruct (decide (OutputFilter (config p) = [])) as [HF|HF].
  - split; [|by left]. unfold filterOutputs. by rewrite HF.
  - split.
    + apply map_subseteq_spec. intros n outputs.
      rewrite filterOutputs_lookup by done. by destruct (decide _).
    + intros n. rewrite filterOutputs_lookup by done.
      destruct (decide _); [by right|by intros [? ?]].
Qed.

(** X14.  The filter is used as a set: two pipelines with the same step
    output log, whose filters list the same names (in any order, any
    number of times), have the same filtered log. *)
Theorem filterOutputs_same_names p1 p2 :
  stepOutputs p1 = stepOutputs p2 →
  (∀ n, n ∈ OutputFilter (config p1) ↔ n ∈ OutputFilter (config p2)) →
  filterOutputs p1 = filterOutputs p2.
Proof.
  intros Hout Hnames.
  destruct (decide (OutputFilter (config p1) = [])) as [HF1|HF1].
  - assert (OutputFilter (config p2) = []) as HF2.
    { destruct (OutputFilter (config p2)) as [|n F] eqn:HF; [done|].
      assert (n ∈ OutputFilter (config p1)) as Hn by (apply Hnames; left).
      rewrite HF1 in Hn. by apply elem_of_nil in Hn. }
    unfold filterOutputs. by rewrite HF1, HF2.
  - assert (OutputFilter (config p2) ≠ []) as HF2.
    { intros HF2. destruct (OutputFilter (config p1)) as [|n F] eqn:HF; [done|].
      assert (n ∈ OutputFilter (config p2)) as Hn by (apply Hnames; left).
      rewrite HF2 in Hn. by apply elem_of_nil in Hn. }
    apply map_eq. intros n. rewrite !filterOutputs_lookup, Hout by done.
    destruct (decide (n ∈ OutputFilter (config p1))) as [Hn|Hn].
    + rewrite decide_True; [done|]. by apply Hnames.
    + rewrite decide_False; [done|]. by rewrite <- Hnames.
Qed.

End OrderAndFilter.

(** * Runs at the edges, and what is stored can be read back *)

Section Reading.
Context {rtype : Type} `{Countable rtype} {data : Type}.
Variable AssignableTo : rtype → rtype → bool.

Implicit Types (ctx : ExecutionContext rtype data) (p : Pipeline rtype data).
Implicit Types (step : Step rtype data) (t T : rtype).
Implicit Types (inputs : list (iface rtype data)) (ss : list (Step rtype data)).

Lemma omap_lookup_empty (order : list string) :
  omap (λ n, (∅ : gmap string (Step rtype data)) !! n) order = [].
Proof.
  induction order as [|n order IH]; [done|].
  simpl. rewrite lookup_empty. exact IH.
Qed.

(** X15.  On a pipeline without steps [Execute] returns the filtered step
    output log as it stands and no error; it changes nothing but the
    logger, which gets one warning per name of the configured order and
    the final message. *)
Theorem Execute_no_steps p :
  steps p = [] →
  Execute AssignableTo p
  = (set_logger
       (logger p
        ++ ((λ n, (WarnLevel, StepOrderUnknown n)) <$> StepOrder (config p))
        ++ [(InfoLevel, ExecutionComplete)]) p,
     Returns (Some (filterOutputs p), None)).
Proof.
  intros Hsteps.
  destruct (decide (StepOrder (config p) = [])) as [HO|HO].
  - assert (reorderStepsIfNeeded p = (p, Ok tt)) as Hre.
    { unfold reorderStepsIfNeeded. by rewrite HO. }
    rewrite (Execute_unfold _ p p Hre), Hsteps, HO. done.
  - rewrite (Execute_unfold _ p _ (reorderStepsIfNeeded_unfold p HO)).
    rewrite Hsteps. unfold buildStepMap. simpl foldl.
    rewrite omap_lookup_empty, filter_nil.
    rewrite (filter_all (λ n, (∅ : gmap string (Step rtype data)) !! n = None))
      by (apply Forall_forall; intros n _; apply lookup_empty).
    simpl. destruct p; simpl in *. subst.
    unfold set_logger, set_steps, filterOutputs. simpl.
    by rewrite <- app_assoc.
Qed.

(** ** The [Fail] policy, seen from a successful run *)

Lemma resolveArgs_Fail_explicit step hasStepCfg bindings params :
  ∀ (i : nat) p p' args,
    MissingArgPolicy (config p) = MissingArgPolicyFail →
    resolveArgs AssignableTo step hasStepCfg bindings i params p = (p', Ok args) →
    ∀ k : nat, (k < length params)%nat →
               usesDefault hasStepCfg bindings (i + k) = false.
Proof.
  induction params as [|T params IH]; intros i p p' args Hpol; simpl.
  - intros _ k Hk. lia.
  - intros Hres. apply bind_Ok in Hres as (p1 & v & Hv & Hres).
    apply bind_Ok in Hres as (p2 & vs & Hvs & _).
    pose proof (resolveParam_onlyCounters _ _ _ _ _ _ _ _ _ Hv) as Hframe.
    apply onlyCounters_fields in Hframe as (_ & _ & Hcfg & _).
    intros [|k] Hk.
    + rewrite Nat.add_0_r.
      destruct (usesDefault hasStepCfg bindings i) eqn:Hd; [|done].
      rewrite resolveParam_usesDefault in Hv by done.
      by rewrite resolveArgDefault_Fail in Hv.
    + replace (i + S k)%nat with (S i + k)%nat by lia.
      eapply IH; [|exact Hvs|lia]. congruence.
Qed.

Lemma stepBindings_bindingsOf step p p' cfg :
  stepBindings step p = (p', Ok cfg) → cfg = bindingsOf (config p) (Name step).
Proof.
  unfold stepBindings, lift, bindingsOf.
  destruct (StepConfigs (config p) !! Name step) as [[stepCfg|]|];
    by intros [= _ <-].
Qed.

Lemma runSteps_Fail_explicit ss :
  ∀ p p',
    MissingArgPolicy (config p) = MissingArgPolicyFail →
    runSteps AssignableTo ss p = (p', Ok tt) →
    ∀ s fn (i : nat),
      s ∈ ss → Callable s = Some fn → (i < length (ParamTypes fn))%nat →
      usesDefault (bindingsOf (config p) (Name s)).1
                  (bindingsOf (config p) (Name s)).2 i = false.
Proof.
  induction ss as [|s0 ss IH]; intros p p' Hpol; simpl.
  - intros _ s fn i Hs. by apply elem_of_nil in Hs.
  - unfold bind. destruct (runStep _ s0 p) as [p1 r1] eqn:H1.
    destruct r1 as [[]|e1|k1]; try done.
    pose proof (runStep_frame _ _ _ _ _ H1) as (_ & Hcfg1 & _).
    intros Hrest s fn i [->|Hs]%elem_of_cons Hfn Hi.
    + rewrite runStep_unfold in H1.
      destruct (executeStep _ s0 _) as [p1' r1'] eqn:Hex.
      destruct r1' as [[]|e1|k1]; try done.
      apply executeStep_outcomes in Hex
        as [[Hr _]|(_ & fn' & cfg & args & p2 & Hfn' & Hb & Hargs & _)]; [done|].
      assert (fn' = fn) as -> by congruence.
      apply stepBindings_bindingsOf in Hb. simpl in Hb. subst cfg.
      pose proof (resolveArgs_Fail_explicit _ _ _ _ _ (atStepStart s0 p) _ _
                    Hpol Hargs i Hi) as Hd.
      by rewrite Nat.add_0_l in Hd.
    + rewrite <- Hcfg1. eapply IH; [congruence|exact Hrest|done..].
Qed.

(** X16.  Under the [Fail] policy a run that returns a result map has not
    used default resolution at all: every parameter of every executed
    step has a binding to an initial input or to a step output. *)
Theorem Execute_Fail_success p p' m :
  MissingArgPolicy (config p) = MissingArgPolicyFail →
  Execute AssignableTo p = (p', Returns (Some m, None)) →
  ∀ s fn (i : nat),
    s ∈ steps p' → Callable s = Some fn → (i < length (ParamTypes fn))%nat →
    usesDefault (bindingsOf (config p) (Name s)).1
                (bindingsOf (config p) (Name s)).2 i = false.
Proof.
  intros Hpol.
  destruct (reorderStepsIfNeeded_frame p) as (p0 & Hre & _ & Hcfg0 & _).
  rewrite (Execute_unfold _ p p0 Hre).
  destruct (runSteps _ _ p0) as [p1 r1] eqn:Hrun.
  destruct r1 as [[]|e1|k1]; try done.
  intros [= <- _] s fn i Hs Hfn Hi. simpl in Hs.
  pose proof (runSteps_frame _ _ _ _ _ Hrun) as (Hst & _).
  rewrite Hst in Hs. rewrite <- Hcfg0.
  eapply runSteps_Fail_explicit; [congruence|exact Hrun|done..].
Qed.

(** ** Reading back *)

Lemma valid_inputs_lookup inputs :
  Forall is_Some inputs →
  ∀ (k : nat) x, inputs !! k = Some x →
    ∃ v, ValueOf x = Some v ∧ Interface v = x
         ∧ omap ValueOf inputs !! k = Some v.
Proof.
  induction 1 as [|input inputs [[t d] ->] _ IH]; intros k x; [done|].
  destruct k as [|k].
  - intros [= <-]. exists (Concrete t d). done.
  - intros Hx. destruct (IH k x Hx) as (v & Hv & Hi & Hl). eauto.
Qed.

(** X17.  Initial inputs are read back by position: after
    [AddInitialInputs] of inputs that are not nil, an [Initial] binding
    whose index is the number of earlier initial inputs plus [k] gives the
    [k]-th input (whose [Interface()] is the input itself) when its type is
    assignable to the parameter, and the type-mismatch error otherwise. *)
Theorem AddInitialInputs_read_back p inputs step T (k : nat) x :
  Forall is_Some inputs →
  inputs !! k = Some x →
  ∃ p' v,
    AddInitialInputs inputs p = (p', Ok tt)
    ∧ ValueOf x = Some v ∧ Interface v = x
    ∧ resolveArgFromInitial AssignableTo step T
        (len (initialValues (context p)) + Z.of_nat k) p'
      = (p', if AssignableTo (TypeOf v) T then Ok v
             else Err (InitialNotAssignable (Name step)
                         (len (initialValues (context p)) + Z.of_nat k)
                         (TypeOf v) T)).
Proof.
  intros Hvalid Hx.
  destruct (AddInputs_appends (context p) inputs Hvalid)
    as (ctx' & Hadd & Hinit & Hlen & _).
  destruct (valid_inputs_lookup inputs Hvalid k x Hx) as (v & Hv & Hiv & Hl).
  eexists _, v. split.
  { unfold AddInitialInputs, bind, logf, modify. rewrite Hadd. reflexivity. }
  split; [done|]. split; [done|].
  set (p' := set_logger _ _).
  assert (initialValues (context p') = initialValues (context p) ++ omap ValueOf inputs)
    as Hinit' by done.
  assert (k < length (omap ValueOf inputs))%nat as Hk
    by (apply lookup_lt_is_Some; eauto).
  pose proof (resolveArgFromInitial_cases AssignableTo step T
                (len (initialValues (context p)) + Z.of_nat k) p') as [_ Hin].
  cbv zeta in Hin. rewrite Hinit' in Hin.
  destruct Hin as (val & Hval & Hbad & Hgood).
  { unfold len. rewrite length_app. lia. }
  assert (val = v) as ->.
  { unfold len in Hval.
    replace (Z.to_nat (Z.of_nat (length (initialValues (context p))) + Z.of_nat k))
      with (length (initialValues (context p)) + k)%nat in Hval by lia.
    rewrite lookup_app_r, Nat.add_comm, Nat.add_sub in Hval by lia. congruence. }
  destruct (AssignableTo (TypeOf v) T) eqn:Hassign.
  - by apply Hgood.
  - by apply Hbad.
Qed.

(** X18.  The outputs of a step can be read back by position: after a
    successful [executeStep] the entry of the step in the output log is
    its earlier entry followed by the [Interface()] of the results, the
    results are what [StoreResults] put in the store, and a
    [FunctionOutput] binding to the [i]-th new output, when that output
    is not nil, gives it as a value of its dynamic type if that type is
    assignable to the parameter, and the type-mismatch error otherwise. *)
Theorem executeStep_read_back step p p' :
  executeStep AssignableTo step p = (p', Ok tt) →
  ∃ results,
    context p' = StoreResults (context p) results
    ∧ stepOutputs p' !! Name step
      = Some (default [] (stepOutputs p !! Name step) ++ map Interface results)
    ∧ ∀ step2 T (i : nat) t d,
        map Interface results !! i = Some (Some (t, d)) →
        resolveArgFromFunctionOutput AssignableTo step2 T (Name step)
          (len (default [] (stepOutputs p !! Name step)) + Z.of_nat i) p'
        = (p', if AssignableTo t T then Ok (Concrete t d)
               else Err (OutputNotAssignable (Name step2) t (Name step) T)).
Proof.
  intros [[Hr _]|(_ & fn & cfg & args & p1 & _ & _ & Hargs & ->)]%executeStep_outcomes;
    [done|].
  apply resolveArgs_onlyCounters, onlyCounters_fields in Hargs
    as (_ & Hctx & _ & _ & Hout).
  exists (Call fn args). split; [by rewrite <- Hctx|].
  assert (stepOutputs (afterCall step fn args p1) !! Name step
          = Some (default [] (stepOutputs p !! Name step)
                  ++ map Interface (Call fn args))) as Hentry.
  { simpl. by rewrite lookup_insert_eq, Hout. }
  split; [done|].
  intros step2 T i t d Hi.
  pose proof (resolveArgFromFunctionOutput_cases AssignableTo step2 T (Name step)
                (len (default [] (stepOutputs p !! Name step)) + Z.of_nat i)
                (afterCall step fn args p1)) as Hcases.
  rewrite Hentry in Hcases. destruct Hcases as [_ Hin].
  assert (i < length (map Interface (Call fn args)))%nat as Hlt
    by (apply lookup_lt_is_Some; eauto).
  destruct Hin as (out & Hl & ->).
  { unfold len. rewrite length_app. lia. }
  unfold len in Hl.
  replace (Z.to_nat (Z.of_nat (length (default [] (stepOutputs p !! Name step)))
                     + Z.of_nat i))
    with (length (default [] (stepOutputs p !! Name step)) + i)%nat in Hl by lia.
  rewrite lookup_app_r in Hl by apply Nat.le_add_r.
  rewrite (Nat.add_comm _ i), Nat.add_sub in Hl.
  pose proof (eq_trans (eq_sym Hl) Hi) as [= ->]. done.
Qed.

End Reading.

(** * The demo instance *)

Module DemoFacts.
Import Demo.

(** C4, at a step that returns a nil [error].  After [NilError] has run,
    its entry of the step output log is the one-element sequence holding
    nil; index 0 is in range, and resolving the binding neither fails
    with a type mismatch nor returns a value: it panics, and so does
    [Execute]. *)
Theorem resolveArgFromFunctionOutput_nil_output_panics :
  ∃ p1,
    runStep AssignableTo NilError nilOutputPipeline = (p1, Ok tt)
    ∧ stepOutputs p1 !! "NilError" = Some [None]
    ∧ resolveArgFromFunctionOutput AssignableTo TakesError tError "NilError" 0 p1
      = (p1, Panic TypeOnZeroValue)
    ∧ (Execute AssignableTo nilOutputPipeline).2 = Panics TypeOnZeroValue.
Proof.
  eexists. split; [vm_compute; reflexivity|].
  split; [vm_compute; reflexivity|].
  split; vm_compute; reflexivity.
Qed.


Local Ltac computed := vm_compute; reflexivity.
Local Ltac refuted := let Heq := fresh in intros Heq; vm_compute in Heq; discriminate Heq.
Local Ltac decided := refine (bool_decide_unpack _ _); vm_compute; exact I.

(** The run of the demo program: [Step2] is called with the first stored
    string, the initial input ["a"], and returns 1. *)
Example demo_run :
  (Execute AssignableTo demoPipeline).2
  = Returns (Some {[ "Step1" := [str "Hello from Step1!"]; "Step2" := [int 1] ]}, None).
Proof. computed. Qed.

(** C5 on the store of the demo: no value of type [int], a negative
    index, and an index past the end of the two strings. *)
Lemma getValueByIndex_spec_witness :
  getValueByIndex inputsAB tInt 0 = Err (NoValuesFound tInt)
  ∧ getValueByIndex inputsAB tString (-1) = Err (NegativeIndex tString)
  ∧ getValueByIndex inputsAB tString 7 = Ok strB.
Proof.
  split; [|split].
  - pose proof (getValueByIndex_spec inputsAB tInt 0) as (Hnone & _ & _).
    apply Hnone. computed.
  - pose proof (getValueByIndex_spec inputsAB tString (-1)) as (_ & Hneg & _).
    apply Hneg; [refuted|lia].
  - pose proof (getValueByIndex_spec inputsAB tString 7) as (_ & _ & Hclamp).
    destruct Hclamp as (v & Hv & Hget); [refuted|lia|].
    vm_compute in Hv. injection Hv as <-. exact Hget.
Defined.

(** C6 on the demo: an index past the two initial inputs, the second
    input for an [int] parameter, and the second input for a [string]
    parameter. *)
Lemma resolveArg_Initial_spec_witness :
  resolveArg AssignableTo Step2 tString (ArgBinding.mk ArgSourceInitial "" 2) demoPipeline
    = (demoPipeline, Err (InitialIndexOutOfRange "Step2" 2 2))
  ∧ resolveArg AssignableTo Step2 tInt (ArgBinding.mk ArgSourceInitial "" 1) demoPipeline
    = (demoPipeline, Err (InitialNotAssignable "Step2" 1 tString tInt))
  ∧ resolveArg AssignableTo Step2 tString (ArgBinding.mk ArgSourceInitial "" 1) demoPipeline
    = (demoPipeline, Ok strB).
Proof.
  split; [|split].
  - pose proof (resolveArg_Initial_spec AssignableTo Step2 tString
                  (ArgBinding.mk ArgSourceInitial "" 2) demoPipeline eq_refl)
      as (Hout & _).
    apply Hout. vm_compute. intros [_ Hlt]. discriminate Hlt.
  - pose proof (resolveArg_Initial_spec AssignableTo Step2 tInt
                  (ArgBinding.mk ArgSourceInitial "" 1) demoPipeline eq_refl)
      as (_ & Hin).
    destruct Hin as (val & Hval & Hbad & _); [by vm_compute|].
    vm_compute in Hval. injection Hval as <-.
    apply Hbad. computed.
  - pose proof (resolveArg_Initial_spec AssignableTo Step2 tString
                  (ArgBinding.mk ArgSourceInitial "" 1) demoPipeline eq_refl)
      as (_ & Hin).
    destruct Hin as (val & Hval & _ & Hgood); [by vm_compute|].
    vm_compute in Hval. injection Hval as <-.
    apply Hgood. computed.
Defined.

(** C1 on [Concat3]: its third [string] parameter is request [j = 2] for
    a type with [k = 2] stored values, and gets the value at position
    [min 2 1 = 1]. *)
Lemma useLatest_jth_pick_witness :
  ∃ p2,
    resolveParam AssignableTo Concat3 false [] 2 tString
      (resolveArgs AssignableTo Concat3 false [] 0 [tString; tString]
         (atStepStart Concat3 concatPipeline)).1
    = (p2, Ok strB).
Proof.
  destruct (useLatest_jth_pick AssignableTo concatPipeline Concat3 false []
              [tString; tString] [strA; strB]
              (resolveArgs AssignableTo Concat3 false [] 0 [tString; tString]
                 (atStepStart Concat3 concatPipeline)).1
              tString [strA; strB])
    as ((v & p2 & Hv & Hres) & _); [computed|computed|refuted|computed|computed|].
  vm_compute in Hv. injection Hv as <-. by exists p2.
Defined.

(** C10 on [Concat3]: the third parameter is resolved although both
    stored strings have been handed out. *)
Lemma useLatest_default_succeeds_witness :
  ∃ v p2,
    resolveParam AssignableTo Concat3 false [] 2 tString
      (resolveArgs AssignableTo Concat3 false [] 0 [tString; tString]
         (atStepStart Concat3 concatPipeline)).1
    = (p2, Ok v).
Proof.
  destruct (useLatest_default_succeeds AssignableTo
              (atStepStart Concat3 concatPipeline) Concat3 false []
              [tString; tString] [strA; strB]
              (resolveArgs AssignableTo Concat3 false [] 0 [tString; tString]
                 (atStepStart Concat3 concatPipeline)).1
              tString [strA; strB])
    as (_ & v & p2 & Hres & _);
    [computed|computed|computed|computed|computed|refuted|].
  by exists v, p2.
Defined.


(** C7 on the demo under the [Fail] policy: [Step2] needs a [string],
    three are stored, and the run ends with the missing-argument error. *)
Lemma fail_policy_aborts_witness :
  values (context (runSteps AssignableTo [Step1] failPolicyPipeline).1) !! tString
    = Some [strA; strB; Concrete tString (Str "Hello from Step1!")]
  ∧ (Execute AssignableTo failPolicyPipeline).2
    = Returns (None, Some (MissingArgumentFail "Step2" tString)).
Proof.
  split; [computed|].
  refine (proj2 (proj2
    (fail_policy_aborts AssignableTo failPolicyPipeline failPolicyPipeline
       [Step1] Step2 []
       (runSteps AssignableTo [Step1] failPolicyPipeline).1
       {| ParamTypes := [tString]; Call := _ |} (false, []) [] tString [] []
       (atStepStart Step2 (runSteps AssignableTo [Step1] failPolicyPipeline).1)
       _ _ _ _ _ _ _ _ _))); computed.
Defined.

(** C8 on the demo after its run: with the filter [Step1], and with no
    filter. *)
Lemma filterOutputs_idempotent_witness :
  (let p := (runSteps AssignableTo [Step1; Step2] filteredPipeline).1 in
   filterOutputs (set_stepOutputs (filterOutputs p) p) = filterOutputs p)
  ∧ (let p := (runSteps AssignableTo [Step1; Step2] demoPipeline).1 in
     filterOutputs p = stepOutputs p).
Proof.
  split.
  - exact (proj1 (filterOutputs_idempotent
                    (runSteps AssignableTo [Step1; Step2] filteredPipeline).1)
                 ltac:(refuted)).
  - exact (proj2 (filterOutputs_idempotent
                    (runSteps AssignableTo [Step1; Step2] demoPipeline).1)
                 ltac:(computed)).
Defined.

(** C9 as amended, on a pipeline whose only step returns nothing: the
    name of no step has no entry, the name of the silent step has the
    empty one. *)
Lemma filterOutputs_entries_witness :
  let p := (executeStep AssignableTo Silent silentPipeline).1 in
  filterOutputs p !! "Ghost" = None
  ∧ filterOutputs p !! "Silent" = Some []
  ∧ is_Some (stepOutputs p !! "Silent").
Proof.
  intros p.
  destruct (filterOutputs_entries AssignableTo p) as (Hnone & Hsome & Hran);
    [refuted|].
  split; [|split].
  - apply Hnone. computed.
  - apply Hsome; [decided|computed].
  - apply (Hran Silent silentPipeline). computed.
Defined.

(** C9 as stated fails: the step [Silent] ran and returned no value, the
    filter names it, and the result of [Execute] has an entry for it,
    the empty sequence. *)
Lemma filterOutputs_silent_step_has_entry :
  ∃ m, (Execute AssignableTo silentPipeline).2 = Returns (Some m, None)
       ∧ m !! "Silent" = Some []
       ∧ m !! "Silent" ≠ None.
Proof.
  exists {[ "Silent" := [] ]}. split; [computed|]. split; [computed|refuted].
Qed.

(** C2 as amended, on an order that names [Step2] and a step that does
    not exist. *)
Lemma reorderStepsIfNeeded_spec_witness :
  ∃ p', reorderStepsIfNeeded ghostOrderPipeline = (p', Ok tt)
        ∧ Name <$> steps p' = ["Step2"; "Step1"]
        ∧ logger p' = [(WarnLevel, StepOrderUnknown "Ghost")]
        ∧ steps p' ≡ₚ steps ghostOrderPipeline.
Proof.
  destruct (reorderStepsIfNeeded_spec ghostOrderPipeline)
    as (p' & Hre & Hsteps & Hlog & _ & Hperm).
  { decided. }
  exists p'. split; [done|]. split; [by rewrite Hsteps|].
  split; [by rewrite Hlog|].
  apply Hperm. decided.
Defined.

(** C2 as stated fails: with [Step1] named twice by the configured
    order, it is appended twice, and the new sequence is one step longer
    than the registered one. *)
Lemma reorderStepsIfNeeded_repeated_name :
  ∃ p', reorderStepsIfNeeded repeatedOrderPipeline = (p', Ok tt)
        ∧ Name <$> steps p' = ["Step1"; "Step1"; "Step2"]
        ∧ Name <$> steps repeatedOrderPipeline = ["Step1"; "Step2"]
        ∧ ¬ NoDup (Name <$> steps p').
Proof.
  eexists. split; [computed|]. split; [computed|]. split; [computed|].
  vm_compute. intros Hnd. apply NoDup_cons in Hnd as [Hnotin _].
  apply Hnotin. left.
Qed.

End DemoFacts.

(** * The demo instance, for the store and the runs *)

Module DemoRuns.
Import Demo.

Local Ltac computed := vm_compute; reflexivity.
Local Ltac refuted := let Heq := fresh in intros Heq; vm_compute in Heq; discriminate Heq.
Local Ltac decided := refine (bool_decide_unpack _ _); vm_compute; exact I.

Lemma inputsAB_wellKeyed : wellKeyed inputsAB.
Proof. apply wellKeyed_AddInputs, wellKeyed_new. Qed.

Lemma AssignableTo_refl t : AssignableTo t t = true.
Proof. unfold AssignableTo. by rewrite bool_decide_eq_true_2. Qed.

(** X2 on the two inputs of the demo. *)
Lemma AddInputs_appends_witness :
  ∃ ctx', AddInputs NewExecutionContext [str "a"; str "b"] = (ctx', Ok tt)
          ∧ initialValues ctx' = [strA; strB]
          ∧ valuesOf ctx' tString = [strA; strB].
Proof.
  destruct (AddInputs_appends NewExecutionContext [str "a"; str "b"])
    as (ctx' & Hadd & Hinit & _ & Hvals); [decided|].
  exists ctx'. split; [done|]. split; [exact Hinit|]. exact (Hvals tString).
Defined.

(** X3: a nil input between the two. *)
Lemma AddInputs_nil_input_witness :
  AddInputs NewExecutionContext [str "a"; None; str "b"]
  = ((AddInputs NewExecutionContext [str "a"]).1, Panic TypeOnZeroValue).
Proof.
  exact (proj1 (AddInputs_nil_input NewExecutionContext [str "a"] [str "b"]
                  ltac:(decided))).
Defined.

(** X4 on the store of the demo. *)
Lemma wellKeyed_invariant_witness :
  wellKeyed (AddInputs NewExecutionContext [str "a"; str "b"]).1.
Proof.
  exact (proj2 (proj2 (wellKeyed_invariant (rtype := T) (data := GoData)))
           NewExecutionContext [str "a"; str "b"]
           (proj1 (wellKeyed_invariant (rtype := T) (data := GoData)))).
Defined.

(** X5: the second string stays at position 1 when a third is stored. *)
Lemma getValueByIndex_stable_witness :
  getValueByIndex (StoreResults inputsAB [Concrete tString (Str "c")]) tString 1
  = Ok strB.
Proof.
  apply (getValueByIndex_stable inputsAB tString 1 strB); [|computed].
  vm_compute. split; [discriminate|reflexivity].
Defined.

(** X6 on the three parameters of [Concat3]. *)
Lemma resolveArgs_assignable_witness :
  Forall2 (λ v t, AssignableTo (TypeOf v) t = true)
    [strA; strB; strB] [tString; tString; tString].
Proof.
  apply (resolveArgs_assignable AssignableTo Concat3 false []
           [tString; tString; tString] AssignableTo_refl 0
           (atStepStart Concat3 concatPipeline)
           (resolveArgs AssignableTo Concat3 false [] 0 [tString; tString; tString]
              (atStepStart Concat3 concatPipeline)).1).
  - exact inputsAB_wellKeyed.
  - computed.
Defined.

(** X7 on the demo: no [error] is stored, two strings are. *)
Lemma resolveArgDefault_UseLatest_outcome_witness :
  resolveArgDefault TakesError tError demoPipeline
  = (demoPipeline, Err (CannotFindValue "TakesError" tError (NoValuesFound tError)))
  ∧ ∃ v p', resolveArgDefault Step2 tString demoPipeline = (p', Ok v).
Proof.
  split.
  - apply (proj1 (resolveArgDefault_UseLatest_outcome TakesError tError demoPipeline
                    eq_refl (countersNonneg_empty demoPipeline eq_refl))).
    computed.
  - destruct (proj2 (resolveArgDefault_UseLatest_outcome Step2 tString demoPipeline
                       eq_refl (countersNonneg_empty demoPipeline eq_refl)))
      as (v & p' & Hres & _); [refuted|].
    by exists v, p'.
Defined.

(** X9 on the run of the demo. *)
Lemma Execute_wellKeyed_witness :
  wellKeyed (context (Execute AssignableTo demoPipeline).1).
Proof. exact (Execute_wellKeyed AssignableTo demoPipeline inputsAB_wellKeyed). Defined.

(** X10 on the run of the demo. *)
Lemma Execute_success_entries_witness :
  ∃ m, (Execute AssignableTo demoPipeline).2 = Returns (Some m, None)
       ∧ is_Some (m !! "Step2").
Proof.
  exists {[ "Step1" := [str "Hello from Step1!"]; "Step2" := [int 1] ]}.
  split; [computed|].
  apply (Execute_success_entries AssignableTo demoPipeline
           (Execute AssignableTo demoPipeline).1 _ ltac:(computed) Step2).
  - apply (list_elem_of_lookup_2 _ 1%nat). computed.
  - left. computed.
Defined.


(** X12 on the order that names [Step2] and a step that does not exist. *)
Lemma reorderStepsIfNeeded_idempotent_witness :
  Name <$> steps (reorderStepsIfNeeded (reorderStepsIfNeeded ghostOrderPipeline).1).1
  = ["Step2"; "Step1"].
Proof.
  rewrite (reorderStepsIfNeeded_idempotent ghostOrderPipeline);
    [computed|decided|decided].
Defined.

(** X13 on the filter [Step1]. *)
Lemma filterOutputs_submap_witness :
  filterOutputs (ranWithFilter ["Step1"]) !! "Step2" = None.
Proof.
  destruct (filterOutputs_submap (ranWithFilter ["Step1"])) as [_ Hnames].
  destruct (filterOutputs (ranWithFilter ["Step1"]) !! "Step2") as [outputs|] eqn:Hl;
    [|done].
  destruct (Hnames "Step2") as [Hnil|Hin]; [by rewrite Hl|discriminate Hnil|].
  vm_compute in Hin. apply list_elem_of_singleton in Hin. discriminate Hin.
Defined.

(** X14: naming [Step1] twice changes nothing. *)
Lemma filterOutputs_same_names_witness :
  filterOutputs (ranWithFilter ["Step1"; "Step1"]) = filterOutputs (ranWithFilter ["Step1"]).
Proof.
  apply filterOutputs_same_names; [done|].
  intros n. change (n ∈ ["Step1"; "Step1"] ↔ n ∈ ["Step1"]).
  rewrite !elem_of_cons, elem_of_nil. tauto.
Defined.

(** X15 on a pipeline without steps. *)
Lemma Execute_no_steps_witness :
  (Execute AssignableTo emptyPipeline).2 = Returns (Some ∅, None)
  ∧ logger (Execute AssignableTo emptyPipeline).1
    = [(WarnLevel, StepOrderUnknown "Ghost"); (InfoLevel, ExecutionComplete)].
Proof.
  rewrite (Execute_no_steps AssignableTo emptyPipeline eq_refl).
  split; computed.
Defined.

(** X16 on the demo under [Fail] with the parameter of [Step2] bound. *)
Lemma Execute_Fail_success_witness :
  (∃ m, (Execute AssignableTo boundPipeline).2 = Returns (Some m, None))
  ∧ usesDefault (bindingsOf boundConfig "Step2").1 (bindingsOf boundConfig "Step2").2 0
    = false.
Proof.
  split; [eexists; computed|].
  eapply (Execute_Fail_success AssignableTo boundPipeline
            (Execute AssignableTo boundPipeline).1 _
            eq_refl ltac:(computed) Step2 _ 0%nat).
  - apply (list_elem_of_lookup_2 _ 1%nat). computed.
  - reflexivity.
  - simpl. lia.
Defined.

(** X17 on the two inputs of the demo, added to a new pipeline. *)
Lemma AddInitialInputs_read_back_witness :
  ∃ p', AddInitialInputs [str "a"; str "b"] (NewPipeline None) = (p', Ok tt)
        ∧ resolveArgFromInitial AssignableTo Step2 tString 1 p' = (p', Ok strB).
Proof.
  destruct (AddInitialInputs_read_back AssignableTo (NewPipeline None)
              [str "a"; str "b"] Step2 tString 1 (str "b"))
    as (p' & v & Hadd & Hv & _ & Hres); [decided|reflexivity|].
  injection Hv as <-. exists p'. split; [done|]. exact Hres.
Defined.

(** X18 on [Step1]: its output is read back by a binding of [Step2]. *)
Lemma executeStep_read_back_witness :
  resolveArgFromFunctionOutput AssignableTo Step2 tString "Step1" 0
    (executeStep AssignableTo Step1 demoPipeline).1
  = ((executeStep AssignableTo Step1 demoPipeline).1,
     Ok (Concrete tString (Str "Hello from Step1!"))).
Proof.
  destruct (executeStep_read_back AssignableTo Step1 demoPipeline
              (executeStep AssignableTo Step1 demoPipeline).1)
    as (results & _ & Hentry & Hread); [computed|].
  assert (Some (default [] (stepOutputs demoPipeline !! Name Step1)
                ++ map Interface results)
          = Some [str "Hello from Step1!"]) as Hres
    by (rewrite <- Hentry; computed).
  injection Hres as Hres.
  change (map Interface results = [str "Hello from Step1!"]) in Hres.
  exact (Hread Step2 tString 0%nat tString (Str "Hello from Step1!")
           ltac:(by rewrite Hres)).
Defined.

End DemoRuns.
